(** * A shallow embedding of the in-memory B-Tree (BTreeNode / BTree)

    The Python classes [BTreeNode] and [BTree] are embedded as pure
    functions over an inductive node type.  Python integers are [Z];
    a Python list is a [list]; the [None] placeholder that
    [_insert_non_full] appends to a key list is the [None] of
    [option Z].  Exceptions are values of a small error monad.

    The file has three parts: the embedding together with the
    invariants and the relation that describes an insertion; the
    properties of the embedding, up to one theorem per claim C1-C10 of
    the specification; the learned index of the specification, whose
    code is not among the sources, with its search theorem. *)

From stdpp Require Import base list sorting.
From Stdlib Require Import ZArith Lia.

Local Open Scope Z_scope.
Local Set Warnings "-clear-no-such-hyp".

(** ** Exceptions and results *)

Inductive exn := IndexError | TypeError.

Inductive result (A : Type) : Type :=
| Ok (a : A)
| Raise (e : exn)
| OutOfFuel.
Arguments Ok {A} a.
Arguments Raise {A} e.
Arguments OutOfFuel {A}.

Global Instance result_ret : MRet result := λ A a, Ok a.
Global Instance result_bind : MBind result := λ A B f m,
  match m with
  | Ok a => f a
  | Raise e => Raise e
  | OutOfFuel => OutOfFuel
  end.

(** ** Python list primitives with integer indices *)

Module Py.

(** The position denoted by a subscript [l[i]]: negative indices count
    from the end, anything else out of range has no position. *)
Definition norm_index (len : nat) (i : Z) : option nat :=
  if 0 <=? i then
    if i <? Z.of_nat len then Some (Z.to_nat i) else None
  else
    if 0 <=? Z.of_nat len + i then Some (Z.to_nat (Z.of_nat len + i)) else None.

(** The position denoted by a slice bound or an [insert] index: clamped
    into [0, len]. *)
Definition clamp_index (len : nat) (i : Z) : nat :=
  if 0 <=? i then Nat.min (Z.to_nat i) len
  else Z.to_nat (Z.max 0 (Z.of_nat len + i)).

(** [l[i]] *)
Definition getitem {A} (l : list A) (i : Z) : result A :=
  match norm_index (length l) i with
  | Some n => match l !! n with Some x => Ok x | None => Raise IndexError end
  | None => Raise IndexError
  end.

(** [l[i] = x] *)
Definition setitem {A} (l : list A) (i : Z) (x : A) : result (list A) :=
  match norm_index (length l) i with
  | Some n => Ok (<[n:=x]> l)
  | None => Raise IndexError
  end.

(** [l[i:]] *)
Definition slice_from {A} (l : list A) (i : Z) : list A :=
  drop (clamp_index (length l) i) l.

(** [l[:i]] *)
Definition slice_to {A} (l : list A) (i : Z) : list A :=
  take (clamp_index (length l) i) l.

(** [l.insert(i, x)] *)
Definition insert_at {A} (l : list A) (i : Z) (x : A) : list A :=
  take (clamp_index (length l) i) l ++ x :: drop (clamp_index (length l) i) l.

(** The integer operand of an ordering comparison [key < v] or
    [key > v]: comparing an [int] with [None] raises [TypeError]. *)
Definition as_int (v : option Z) : result Z :=
  match v with
  | Some x => Ok x
  | None => Raise TypeError
  end.

(** [key == v]: equality with [None] is [False], it does not raise. *)
Definition eq_int (key : Z) (v : option Z) : bool :=
  match v with
  | Some x => key =? x
  | None => false
  end.

End Py.

(** ** BTreeNode *)

#[warnings="-register-all"]
Inductive BTreeNode : Type := mkNode {
  node_t : Z;
  is_leaf : bool;
  keys : list (option Z);
  children : list BTreeNode;
  n_keys : Z
}.

(** [BTreeNode.__init__] *)
Definition BTreeNode_init (t : Z) (leaf : bool) : BTreeNode :=
  mkNode t leaf [] [] 0.

Definition set_keys (node : BTreeNode) (ks : list (option Z)) : BTreeNode :=
  mkNode (node_t node) (is_leaf node) ks (children node) (n_keys node).
Definition set_children (node : BTreeNode) (cs : list BTreeNode) : BTreeNode :=
  mkNode (node_t node) (is_leaf node) (keys node) cs (n_keys node).
Definition set_n_keys (node : BTreeNode) (n : Z) : BTreeNode :=
  mkNode (node_t node) (is_leaf node) (keys node) (children node) n.

(** ** BTree *)

Record BTree : Type := mkBTree {
  order : Z;
  root : BTreeNode
}.

(** [BTree.__init__] *)
Definition BTree_init (t : Z) : BTree := mkBTree t (BTreeNode_init t true).

(** The value returned by [search]: the pair [(node, i)], or the pair
    [(None, None)]. *)
Inductive search_result :=
| Found (node : BTreeNode) (i : Z)
| NotFound.

(** The loop [while i < node.n_keys and key > node.keys[i]: i += 1].
    Every iteration increments [i], so [n_keys - i] iterations are the
    most the loop can take; [steps] counts them down. *)
Fixpoint search_scan (ks : list (option Z)) (n key i : Z) (steps : nat)
  : result Z :=
  if i <? n then
    v ← Py.getitem ks i;
    x ← Py.as_int v;
    if key >? x then
      match steps with
      | O => OutOfFuel
      | S s => search_scan ks n key (i + 1) s
      end
    else Ok i
  else Ok i.

(** [BTree._search_recursive] *)
Fixpoint _search_recursive (node : BTreeNode) (key : Z) {struct node}
  : result search_result :=
  match node with
  | mkNode _ leaf ks cs n =>
    i ← search_scan ks n key 0 (Z.to_nat n);
    hit ← (if i <? n then v ← Py.getitem ks i; Ok (Py.eq_int key v)
           else Ok false);
    if hit : bool then Ok (Found node i)
    else if leaf then Ok NotFound
    else
      match Py.norm_index (length cs) i with
      | None => Raise IndexError
      | Some j =>
        (fix pick (l : list BTreeNode) (j : nat) {struct l} :=
           match l, j with
           | [], _ => Raise IndexError
           | c :: _, O => _search_recursive c key
           | _ :: l', S j' => pick l' j'
           end) cs j
      end
  end.

(** [BTree.search] *)
Definition search (tr : BTree) (key : Z) : result search_result :=
  _search_recursive (root tr) key.

(** [BTree._split_child] *)
Definition _split_child (t : Z) (parent_node : BTreeNode) (i : Z)
  : result BTreeNode :=
  full_child ← Py.getitem (children parent_node) i;
  let new_child := BTreeNode_init t (is_leaf full_child) in
  median_key ← Py.getitem (keys full_child) (t - 1);
  let new_child := set_keys new_child (Py.slice_from (keys full_child) t) in
  let full_child := set_keys full_child (Py.slice_to (keys full_child) (t - 1)) in
  let full_child := set_n_keys full_child (t - 1) in
  let new_child := set_n_keys new_child (t - 1) in
  let '(new_child, full_child) :=
    if negb (is_leaf full_child) then
      (set_children new_child (Py.slice_from (children full_child) t),
       set_children full_child (Py.slice_to (children full_child) t))
    else (new_child, full_child) in
  (* [full_child] is the object stored at [children[i]]: its mutation is
     seen through the parent's list. *)
  cs ← Py.setitem (children parent_node) i full_child;
  let parent_node := set_children parent_node cs in
  let parent_node :=
    set_keys parent_node (Py.insert_at (keys parent_node) i median_key) in
  let parent_node :=
    set_children parent_node
      (Py.insert_at (children parent_node) (i + 1) new_child) in
  Ok (set_n_keys parent_node (n_keys parent_node + 1)).

(** The leaf loop
    [while i >= 0 and key < node.keys[i]: node.keys[i+1] = node.keys[i]; i -= 1]. *)
Fixpoint leaf_shift (ks : list (option Z)) (key i : Z) (steps : nat)
  : result (list (option Z) * Z) :=
  if 0 <=? i then
    v ← Py.getitem ks i;
    x ← Py.as_int v;
    if key <? x then
      match steps with
      | O => OutOfFuel
      | S s =>
        ks' ← Py.setitem ks (i + 1) v;
        leaf_shift ks' key (i - 1) s
      end
    else Ok (ks, i)
  else Ok (ks, i).

(** The internal loop [while i >= 0 and key < node.keys[i]: i -= 1]. *)
Fixpoint descend_scan (ks : list (option Z)) (key i : Z) (steps : nat)
  : result Z :=
  if 0 <=? i then
    v ← Py.getitem ks i;
    x ← Py.as_int v;
    if key <? x then
      match steps with
      | O => OutOfFuel
      | S s => descend_scan ks key (i - 1) s
      end
    else Ok i
  else Ok i.

(** [BTree._insert_non_full]; [fuel] bounds the depth of the recursion. *)
Fixpoint _insert_non_full (fuel : nat) (t : Z) (node : BTreeNode) (key : Z)
  : result BTreeNode :=
  match fuel with
  | O => OutOfFuel
  | S fuel' =>
    let i := n_keys node - 1 in
    if is_leaf node then
      let ks := keys node ++ [None] in
      '(ks, i) ← leaf_shift ks key i (Z.to_nat (n_keys node));
      ks ← Py.setitem ks (i + 1) (Some key);
      Ok (set_n_keys (set_keys node ks) (n_keys node + 1))
    else
      i ← descend_scan (keys node) key i (Z.to_nat (n_keys node));
      let i := i + 1 in
      child ← Py.getitem (children node) i;
      '(node, i) ←
        (if n_keys child =? 2 * t - 1 then
           node' ← _split_child t node i;
           v ← Py.getitem (keys node') i;
           x ← Py.as_int v;
           Ok (node', if key >? x then i + 1 else i)
         else Ok (node, i));
      child ← Py.getitem (children node) i;
      child' ← _insert_non_full fuel' t child key;
      cs ← Py.setitem (children node) i child';
      Ok (set_children node cs)
  end.

(** The number of nodes on the longest path from [node] down to a node
    without children: the recursion depth [_insert_non_full] can need. *)
Fixpoint depth (node : BTreeNode) : nat :=
  match node with
  | mkNode _ _ _ cs _ => S (max_list (depth <$> cs))
  end.

(** [BTree.insert] *)
Definition insert (tr : BTree) (key : Z) : result BTree :=
  let t := order tr in
  let root_node := root tr in
  let fuel := S (depth root_node) in
  if n_keys root_node =? 2 * t - 1 then
    let s := BTreeNode_init t false in
    let s := set_children s (Py.insert_at (children s) 0 root_node) in
    s ← _split_child t s 0;
    s ← _insert_non_full fuel t s key;
    Ok (mkBTree t s)
  else
    root' ← _insert_non_full fuel t root_node key;
    Ok (mkBTree t root').

(** Inserting a sequence of keys, one [insert] call per key. *)
Fixpoint insert_all (tr : BTree) (l : list Z) : result BTree :=
  match l with
  | [] => Ok tr
  | k :: l' => tr' ← insert tr k; insert_all tr' l'
  end.

(** ** Positions computed by the three scanning loops *)

(** Number of leading keys that are smaller than [key]: the position of
    the first key [>= key], or the length when there is none. *)
Fixpoint first_ge (key : Z) (zs : list Z) : nat :=
  match zs with
  | [] => 0%nat
  | x :: zs' => if key >? x then S (first_ge key zs') else 0%nat
  end.

(** Position just after the last key that is not greater than [key]
    (scanning from the right end), or 0 when every key is greater. *)
Fixpoint ins_pos (key : Z) (zs : list Z) : nat :=
  match zs with
  | [] => 0%nat
  | x :: zs' =>
    let p := ins_pos key zs' in
    if (p =? 0)%nat && (key <? x) then 0%nat else S p
  end.

(** [key] placed at [ins_pos]. *)
Definition ins_list (key : Z) (zs : list Z) : list Z :=
  take (ins_pos key zs) zs ++ key :: drop (ins_pos key zs) zs.

(** ** Nodes of a tree and the bookkeeping invariant *)

(** A node whose key list holds the integers [zs] and whose key counter
    agrees with it. *)
Definition node_of (t : Z) (leaf : bool) (zs : list Z) (cs : list BTreeNode)
  : BTreeNode :=
  mkNode t leaf (Some <$> zs) cs (Z.of_nat (length zs)).

(** Every node of the tree below (and including) [node], parents first. *)
Fixpoint subnodes (node : BTreeNode) : list BTreeNode :=
  match node with
  | mkNode _ _ _ cs _ => node :: (cs ≫= subnodes)
  end.

(** The nodes other than the root. *)
Definition nonroot_nodes (node : BTreeNode) : list BTreeNode :=
  children node ≫= subnodes.

(** The counters of one node agree with its lists. *)
Definition node_ok (x : BTreeNode) : Prop :=
  n_keys x = Z.of_nat (length (keys x)) ∧
  (if is_leaf x then length (children x) = 0%nat
   else Z.of_nat (length (children x)) = n_keys x + 1).

(** The key list of one node holds integers only (no [None] placeholder). *)
Definition int_keys (x : BTreeNode) : Prop :=
  ∀ v, v ∈ keys x → is_Some v.

(** The bookkeeping invariant: the counters agree in every node. *)
Definition bookkeeping (node : BTreeNode) : Prop :=
  ∀ x, x ∈ subnodes node → node_ok x.

(** Every key list of the tree holds integers only. *)
Definition all_int_keys (node : BTreeNode) : Prop :=
  ∀ x, x ∈ subnodes node → int_keys x.

(** Both together: what the descent of an insertion relies on. *)
Definition bk (node : BTreeNode) : Prop :=
  bookkeeping node ∧ all_int_keys node.

(** ** The two halves of a split node *)

(** The full child after [_split_child]: its first [t-1] keys and, when
    internal, its first [t] children. *)
Definition split_left (t : Z) (c : BTreeNode) : BTreeNode :=
  mkNode (node_t c) (is_leaf c) (take (Z.to_nat (t - 1)) (keys c))
    (if is_leaf c then children c else take (Z.to_nat t) (children c))
    (t - 1).

(** The sibling [_split_child] allocates: the keys after the median
    and, when internal, the last children. *)
Definition split_right (t : Z) (c : BTreeNode) : BTreeNode :=
  mkNode t (is_leaf c) (drop (Z.to_nat t) (keys c))
    (if is_leaf c then [] else drop (Z.to_nat t) (children c))
    (t - 1).

(** The root [insert] hands to [_insert_non_full]: a full root is first
    put under a new root and split. *)
Definition grow (t : Z) (r : BTreeNode) : BTreeNode :=
  if n_keys r =? 2 * t - 1 then
    match keys r !! Z.to_nat (t - 1) with
    | Some m => mkNode t false [m] [split_left t r; split_right t r] 1
    | None => r
    end
  else r.

(** ** The descent of [_insert_non_full] as a relation

    [ins_rel t key node node'] describes the node [node'] that the
    descent leaves in place of [node]. *)
Inductive ins_rel (t key : Z) : BTreeNode → BTreeNode → Prop :=
| ins_leaf tn zs cs :
    ins_rel t key (node_of tn true zs cs)
                  (node_of tn true (ins_list key zs) cs)
| ins_descend tn zs cs c c' :
    cs !! ins_pos key zs = Some c →
    n_keys c ≠ 2 * t - 1 →
    ins_rel t key c c' →
    ins_rel t key (node_of tn false zs cs)
                  (node_of tn false zs (<[ins_pos key zs := c']> cs))
| ins_split tn zs cs c m c' :
    cs !! ins_pos key zs = Some c →
    n_keys c = 2 * t - 1 →
    keys c !! Z.to_nat (t - 1) = Some (Some m) →
    ins_rel t key (if key >? m then split_right t c else split_left t c) c' →
    ins_rel t key (node_of tn false zs cs)
      (node_of tn false
         (take (ins_pos key zs) zs ++ m :: drop (ins_pos key zs) zs)
         (<[(if key >? m then S (ins_pos key zs) else ins_pos key zs) := c']>
            (take (ins_pos key zs) cs ++
             split_left t c :: split_right t c :: drop (S (ins_pos key zs)) cs))).

(** ** In-order traversal, leaf depths, shape *)

(** Children and keys taken alternately: [c0 k0 c1 k1 ... ck]. *)
Fixpoint weave {A} (cs : list (list A)) (ks : list A) : list A :=
  match cs with
  | [] => ks
  | c :: cs' =>
    match ks with
    | [] => c ++ weave cs' []
    | k :: ks' => c ++ k :: weave cs' ks'
    end
  end.

(** What [weave] yields after its first child: [k0 c1 k1 ... ck]. *)
Definition weave_tail {A} (cs : list (list A)) (ks : list A) : list A :=
  match ks with
  | [] => weave cs []
  | k :: ks' => k :: weave cs ks'
  end.

(** The in-order traversal of the slots of the key lists. *)
Fixpoint inorder (node : BTreeNode) : list (option Z) :=
  match node with
  | mkNode _ _ ks cs _ => weave (inorder <$> cs) ks
  end.

(** The in-order traversal of the integer keys. *)
Fixpoint inorder_z (node : BTreeNode) : list Z :=
  match node with
  | mkNode _ _ ks cs _ => weave (inorder_z <$> cs) (omap id ks)
  end.

(** The depth below [node] of every leaf of its subtree. *)
Fixpoint leaf_depths (node : BTreeNode) : list nat :=
  match node with
  | mkNode _ leaf _ cs _ =>
    if leaf then [0%nat] else S <$> (cs ≫= leaf_depths)
  end.

(** [shape lo t h node]: [node] is the root of a subtree of height [h]
    whose leaves all lie at depth [h], whose own key count lies in
    [[lo, 2t-1]] and whose other nodes hold between [t-1] and [2t-1]
    keys; the counters of every node agree with its lists. *)
Fixpoint shape (lo t : Z) (h : nat) (node : BTreeNode) : Prop :=
  node_ok node ∧ int_keys node ∧
  lo ≤ n_keys node ≤ 2 * t - 1 ∧
  match h with
  | O => is_leaf node = true
  | S h' => is_leaf node = false ∧ Forall (shape (t - 1) t h') (children node)
  end.

(** ** Trees reachable by inserts *)

Definition reachable (t : Z) (tr : BTree) : Prop :=
  ∃ l, insert_all (BTree_init t) l = Ok tr.

(** ** The search procedure as the specification words it

    "Descend from root; at each node, find the first key [>= target];
    if equal, return match; if node is a leaf, return NotFound; else
    descend into the child at that index." *)

Definition key_ge (target : Z) (v : option Z) : bool :=
  match v with
  | Some x => target <=? x
  | None => false
  end.

(** Position of the first element satisfying [p]; the length when there
    is none. *)
Fixpoint find_first {A} (p : A → bool) (l : list A) : nat :=
  match l with
  | [] => 0%nat
  | x :: l' => if p x then 0%nat else S (find_first p l')
  end.

Fixpoint spec_search (node : BTreeNode) (target : Z) : search_result :=
  match node with
  | mkNode _ leaf ks cs _ =>
    let i := find_first (key_ge target) ks in
    if bool_decide (ks !! i = Some (Some target)) then Found node (Z.of_nat i)
    else if leaf then NotFound
    else default NotFound (((λ c, spec_search c target) <$> cs) !! i)
  end.

(** ** The subtree ordering of an internal node *)

(** The ordering as the specification words it: the keys below
    [children[i]] are [<= keys[i-1]] and [< keys[i]]. *)
Definition subtree_order_claimed (node : BTreeNode) : Prop :=
  ∀ x, x ∈ subnodes node → is_leaf x = false →
  ∀ (i : nat) c k, children x !! i = Some c → Some k ∈ inorder c →
    (∀ kp, (0 < i)%nat → keys x !! (i - 1)%nat = Some (Some kp) → k ≤ kp) ∧
    (∀ kn, (i < length (keys x))%nat → keys x !! i = Some (Some kn) → k < kn).

(** The ordering the tree has: the keys below [children[i]] are
    [> keys[i-1]] and [< keys[i]]. *)
Definition subtree_order (node : BTreeNode) : Prop :=
  ∀ x, x ∈ subnodes node → is_leaf x = false →
  ∀ (i : nat) c k, children x !! i = Some c → Some k ∈ inorder c →
    (∀ kp, (0 < i)%nat → keys x !! (i - 1)%nat = Some (Some kp) → kp < k) ∧
    (∀ kn, (i < length (keys x))%nat → keys x !! i = Some (Some kn) → k < kn).

(** ** Statements about a whole tree *)

(** [search] returns a pair [(node, i)] with [node.keys[i] == k] for the
    keys of [K], and the sentinel for every other key. *)
Definition finds_exactly (tr : BTree) (K : list Z) : Prop :=
  (∀ k, k ∈ K →
     ∃ node i, search tr k = Ok (Found node i) ∧
               node ∈ subnodes (root tr) ∧
               Py.getitem (keys node) i = Ok (Some k)) ∧
  (∀ k, k ∉ K → search tr k = Ok NotFound).

(** The in-order traversal yields exactly the keys of [K], in strictly
    increasing order. *)
Definition inorder_yields (tr : BTree) (K : list Z) : Prop :=
  ∃ s, inorder (root tr) = Some <$> s ∧ StronglySorted Z.lt s ∧ s ≡ₚ K.

(** Key counts of the nodes other than the root, and child counts of
    all nodes. *)
Definition node_counts (t : Z) (tr : BTree) : Prop :=
  (∀ x, x ∈ nonroot_nodes (root tr) →
     t - 1 ≤ Z.of_nat (length (keys x)) ≤ 2 * t - 1 ∧
     n_keys x = Z.of_nat (length (keys x))) ∧
  (∀ x, x ∈ subnodes (root tr) →
     (is_leaf x = false → length (children x) = S (length (keys x))) ∧
     (is_leaf x = true → length (children x) = 0%nat)).

(** All leaves of the tree lie at depth [d]. *)
Definition leaves_at (tr : BTree) (d : nat) : Prop :=
  leaf_depths (root tr) ≠ [] ∧ ∀ x, x ∈ leaf_depths (root tr) → x = d.

(** Number of slots of the tree that hold [k]. *)
Definition count_key (k : Z) (tr : BTree) : nat :=
  length (filter (λ v, v = Some k) (inorder (root tr))).

(** The tree of the demonstration: order 3, seventeen keys. *)
Definition demo_keys : list Z :=
  [0; 5; 7; 10; 12; 15; 18; 20; 22; 25; 28; 30; 33; 35; 40; 45; 50].

Definition demo_tree : BTree :=
  Eval vm_compute in
    match insert_all (BTree_init 3) demo_keys with
    | Ok tr => tr
    | _ => BTree_init 3
    end.

(** ** The learned index (RMIModel) *)

Module RMI.

(** Modelled from the spec: the classes [LinearModel] and [RMIModel] are
    not among the sources of the repository; this module follows
    section 4.3 of the specification.  A fitted line followed by
    [round] is an arbitrary function from keys to integers: nothing is
    assumed about the quality of a fit. *)
Record Leaf : Type := mkLeaf {
  leaf_position : Z → Z;   (* round(leaf.model.predict(key)) *)
  max_error : Z
}.

(** Modelled from the spec: an [RMIModel] is a stage-0 model, the
    sequence of its leaves and the sorted array it was built from. *)
Record RMIModel : Type := mkRMI {
  stage0_leaf : Z → Z;     (* round(stage0.predict(key)) *)
  leaves : list Leaf;
  data : list Z
}.

Definition clip (x lo hi : Z) : Z := Z.max lo (Z.min x hi).

(** Modelled from the spec: the leaf that [predict] consults,
    [clip(round(stage0.predict(key)), 0, leaves.length - 1)]. *)
Definition leaf_for (m : RMIModel) (key : Z) : option Leaf :=
  leaves m !!
    Z.to_nat (clip (stage0_leaf m key) 0 (Z.of_nat (length (leaves m)) - 1)).

(** Modelled from the spec: [predict(key) -> (approx_position, bound)],
    the position clipped to the valid array indices. *)
Definition predict (m : RMIModel) (key : Z) : option (Z * Z) :=
  lf ← leaf_for m key;
  Some (clip (leaf_position lf key) 0 (Z.of_nat (length (data m)) - 1),
        max_error lf).

(** Modelled from the spec: binary search for [key] in the window
    [[lo, hi]] of the array; a window of [hi - lo + 1] cells is
    exhausted after at most as many probes. *)
Fixpoint binary_search (A : list Z) (key lo hi : Z) (steps : nat) : option Z :=
  match steps with
  | O => None
  | S s =>
    if lo <=? hi then
      let mid := (lo + hi) / 2 in
      match A !! Z.to_nat mid with
      | Some x =>
        if x =? key then Some mid
        else if x <? key then binary_search A key (mid + 1) hi s
        else binary_search A key lo (mid - 1) s
      | None => None
      end
    else None
  end.

Definition search_window (A : list Z) (key lo hi : Z) : option Z :=
  binary_search A key lo hi (Z.to_nat (hi - lo + 1)).

(** Modelled from the spec: [search(key) -> index | NotFound], with the
    fallback event it records: the window
    [[max(0, approx - bound), min(n - 1, approx + bound)]] first, the
    whole array when the window has no match. *)
Definition search (m : RMIModel) (key : Z) : option Z * bool :=
  let n := Z.of_nat (length (data m)) in
  match predict m key with
  | Some (approx, bound) =>
    match search_window (data m) key
            (Z.max 0 (approx - bound)) (Z.min (n - 1) (approx + bound)) with
    | Some i => (Some i, false)
    | None => (search_window (data m) key 0 (n - 1), true)
    end
  | None => (search_window (data m) key 0 (n - 1), true)
  end.

(** The error bound of the leaf that [key] is routed to covers a
    position at which the array holds [key]. *)
Definition bound_covers (m : RMIModel) (key : Z) : Prop :=
  ∃ lf (i : nat),
    leaf_for m key = Some lf ∧ data m !! i = Some key ∧
    Z.abs (Z.of_nat i - leaf_position lf key) ≤ max_error lf.

End RMI.

(** ** The nodes off the rightmost path *)

(** The nodes of the subtree of [node] that are not on the path from
    [node] down its last children. *)
Fixpoint off_spine (node : BTreeNode) : list BTreeNode :=
  match node with
  | mkNode _ _ _ cs _ =>
    (fix go (l : list BTreeNode) : list BTreeNode :=
       match l with
       | [] => []
       | [c] => off_spine c
       | c :: l' => subnodes c ++ go l'
       end) cs
  end.

(** The same for a list of siblings: everything below the siblings
    before the last one, and what is off the path below the last. *)
Fixpoint off_spine_children (l : list BTreeNode) : list BTreeNode :=
  match l with
  | [] => []
  | [c] => off_spine c
  | c :: l' => subnodes c ++ off_spine_children l'
  end.

(** Every node off the rightmost path below [node] holds exactly
    [t - 1] keys. *)
Definition lean_off_spine (t : Z) (node : BTreeNode) : Prop :=
  ∀ x, x ∈ off_spine node →
    n_keys x = t - 1 ∧ Z.of_nat (length (keys x)) = t - 1.

(** ** The helper of the timing demonstration *)

(** [long_running_task]: the loop [for i in range(n): sum_val += i]. *)
Definition long_running_task (n : Z) : Z :=
  foldl (λ sum_val i, sum_val + i) 0 (seqZ 0 n).

(** Equalities between concatenations, up to re-bracketing. *)
Ltac app_norm :=
  repeat first [rewrite <- (assoc_L (++)) | rewrite <- app_comm_cons];
  reflexivity.

(** * Properties *)

(** ** The list primitives at positions in range *)

Section py_facts.
Context {A : Type}.
Implicit Types (l : list A) (n : nat) (x : A).

Lemma norm_index_nat len n :
  (n < len)%nat → Py.norm_index len (Z.of_nat n) = Some n.
Proof.
  intros Hn. unfold Py.norm_index.
  destruct (Z.leb_spec 0 (Z.of_nat n)); [|lia].
  destruct (Z.ltb_spec (Z.of_nat n) (Z.of_nat len)); [|lia].
  by rewrite Nat2Z.id.
Qed.

Lemma norm_index_ge len n :
  (len ≤ n)%nat → Py.norm_index len (Z.of_nat n) = None.
Proof.
  intros Hn. unfold Py.norm_index.
  destruct (Z.leb_spec 0 (Z.of_nat n)); [|lia].
  destruct (Z.ltb_spec (Z.of_nat n) (Z.of_nat len)); [lia|done].
Qed.

Lemma clamp_index_nat len n :
  Py.clamp_index len (Z.of_nat n) = Nat.min n len.
Proof.
  unfold Py.clamp_index.
  destruct (Z.leb_spec 0 (Z.of_nat n)); [|lia]. by rewrite Nat2Z.id.
Qed.

Lemma getitem_nat l n x : l !! n = Some x → Py.getitem l (Z.of_nat n) = Ok x.
Proof.
  intros Hx. unfold Py.getitem.
  rewrite norm_index_nat by (by eapply lookup_lt_Some). by rewrite Hx.
Qed.

Lemma getitem_nat_None l n :
  l !! n = None → Py.getitem l (Z.of_nat n) = Raise IndexError.
Proof.
  intros Hx. unfold Py.getitem.
  rewrite norm_index_ge; [done|]. by apply lookup_ge_None.
Qed.

Lemma setitem_nat l n x :
  (n < length l)%nat → Py.setitem l (Z.of_nat n) x = Ok (<[n:=x]> l).
Proof. intros Hn. unfold Py.setitem. by rewrite norm_index_nat. Qed.

Lemma slice_from_nat l n : Py.slice_from l (Z.of_nat n) = drop n l.
Proof.
  unfold Py.slice_from. rewrite clamp_index_nat.
  destruct (Nat.min_spec n (length l)) as [[? ->]|[? ->]]; [done|].
  by rewrite !drop_ge by lia.
Qed.

Lemma slice_to_nat l n : Py.slice_to l (Z.of_nat n) = take n l.
Proof.
  unfold Py.slice_to. rewrite clamp_index_nat.
  destruct (Nat.min_spec n (length l)) as [[? ->]|[? ->]]; [done|].
  by rewrite !take_ge by lia.
Qed.

Lemma insert_at_nat l n x :
  (n ≤ length l)%nat →
  Py.insert_at l (Z.of_nat n) x = take n l ++ x :: drop n l.
Proof.
  intros Hn. unfold Py.insert_at. rewrite clamp_index_nat.
  by rewrite Nat.min_l.
Qed.
End py_facts.

(** ** The scanning loops *)

Lemma bind_Ok {A B} (a : A) (f : A → result B) : (Ok a ≫= f) = f a.
Proof. reflexivity. Qed.

Lemma search_scan_eq ks n key i steps :
  search_scan ks n key i steps =
  if i <? n then
    v ← Py.getitem ks i;
    x ← Py.as_int v;
    if key >? x then
      match steps with
      | O => OutOfFuel
      | S s => search_scan ks n key (i + 1) s
      end
    else Ok i
  else Ok i.
Proof. by destruct steps. Qed.

Lemma descend_scan_eq ks key i steps :
  descend_scan ks key i steps =
  if 0 <=? i then
    v ← Py.getitem ks i;
    x ← Py.as_int v;
    if key <? x then
      match steps with
      | O => OutOfFuel
      | S s => descend_scan ks key (i - 1) s
      end
    else Ok i
  else Ok i.
Proof. by destruct steps. Qed.

Lemma leaf_shift_eq ks key i steps :
  leaf_shift ks key i steps =
  if 0 <=? i then
    v ← Py.getitem ks i;
    x ← Py.as_int v;
    if key <? x then
      match steps with
      | O => OutOfFuel
      | S s =>
        ks' ← Py.setitem ks (i + 1) v;
        leaf_shift ks' key (i - 1) s
      end
    else Ok (ks, i)
  else Ok (ks, i).
Proof. by destruct steps. Qed.

Lemma getitem_keys_middle (pre : list Z) x (rest : list (option Z)) :
  Py.getitem ((Some <$> pre) ++ Some x :: rest) (Z.of_nat (length pre)) = Ok (Some x).
Proof.
  apply getitem_nat. rewrite lookup_app_r by (rewrite length_fmap; lia).
  by rewrite length_fmap, Nat.sub_diag.
Qed.

Lemma search_scan_spec key zs : ∀ pre steps,
  (length zs ≤ steps)%nat →
  search_scan (Some <$> (pre ++ zs)) (Z.of_nat (length (pre ++ zs))) key
    (Z.of_nat (length pre)) steps
  = Ok (Z.of_nat (length pre + first_ge key zs)).
Proof.
  induction zs as [|x zs IH]; intros pre steps Hs; rewrite search_scan_eq.
  - rewrite app_nil_r, Z.ltb_irrefl. simpl. by rewrite Nat.add_0_r.
  - rewrite length_app. simpl length.
    destruct (Z.ltb_spec (Z.of_nat (length pre))
                (Z.of_nat (length pre + S (length zs)))); [|lia].
    rewrite fmap_app, fmap_cons, getitem_keys_middle. simpl.
    destruct (key >? x) eqn:Hk.
    + destruct steps as [|s]; [simpl in Hs; lia|].
      specialize (IH (pre ++ [x]) s). rewrite <- (assoc_L (++)) in IH.
      simpl in IH. rewrite !length_app in IH. simpl length in IH.
      rewrite fmap_app, fmap_cons in IH.
      replace (Z.of_nat (length pre) + 1)
        with (Z.of_nat (length pre + 1)) by lia.
      rewrite IH by (simpl in Hs; lia). f_equal. lia.
    + by rewrite Nat.add_0_r.
Qed.

Lemma ins_pos_snoc key zs x :
  ins_pos key (zs ++ [x]) =
  if key <? x then ins_pos key zs else S (length zs).
Proof.
  induction zs as [|a zs IH]; simpl.
  - by destruct (key <? x).
  - rewrite IH. by destruct (key <? x).
Qed.

Lemma ins_pos_le key zs : (ins_pos key zs ≤ length zs)%nat.
Proof.
  induction zs as [|a zs IH]; simpl; [lia|].
  destruct (_ && _); lia.
Qed.

Lemma ins_pos_drop key zs : Forall (λ x, key < x) (drop (ins_pos key zs) zs).
Proof.
  induction zs as [|a zs IH]; simpl; [constructor|].
  destruct (Nat.eqb_spec (ins_pos key zs) 0) as [H0|H0]; simpl.
  - destruct (Z.ltb_spec key a); simpl.
    + constructor; [done|]. by rewrite H0 in IH.
    + by rewrite H0 in IH |- *.
  - done.
Qed.

Lemma ins_pos_prev key zs p :
  ins_pos key zs = S p → ∃ x, zs !! p = Some x ∧ x ≤ key.
Proof.
  revert p. induction zs as [|a zs IH]; simpl; [done|]. intros p.
  destruct (Nat.eqb_spec (ins_pos key zs) 0) as [H0|H0]; simpl.
  - destruct (Z.ltb_spec key a); simpl; [done|].
    rewrite H0. intros [= <-]. eauto.
  - intros [= <-]. destruct (ins_pos key zs) as [|q] eqn:Hq; [done|].
    simpl. eauto.
Qed.

Lemma descend_scan_spec key rest zs : ∀ steps,
  (length zs ≤ steps)%nat →
  descend_scan ((Some <$> zs) ++ rest) key (Z.of_nat (length zs) - 1) steps
  = Ok (Z.of_nat (ins_pos key zs) - 1).
Proof.
  revert rest. induction zs as [|x zs IH] using rev_ind;
    intros rest steps Hs; rewrite descend_scan_eq.
  - simpl. done.
  - rewrite length_app in *. simpl length in *.
    destruct (Z.leb_spec 0 (Z.of_nat (length zs + 1) - 1)); [|lia].
    replace (Z.of_nat (length zs + 1) - 1) with (Z.of_nat (length zs)) by lia.
    rewrite fmap_app, <- (assoc_L (++)). simpl.
    rewrite getitem_keys_middle. simpl.
    rewrite ins_pos_snoc. destruct (key <? x) eqn:Hk.
    + destruct steps as [|s]; [lia|].
      rewrite IH by lia. done.
    + f_equal. lia.
Qed.

Lemma leaf_shift_spec key zs : ∀ v suf steps,
  (length zs ≤ steps)%nat →
  ∃ w, leaf_shift ((Some <$> zs) ++ v :: suf) key (Z.of_nat (length zs) - 1) steps
       = Ok ((Some <$> take (ins_pos key zs) zs) ++
               w :: (Some <$> drop (ins_pos key zs) zs) ++ suf,
             Z.of_nat (ins_pos key zs) - 1).
Proof.
  induction zs as [|x zs IH] using rev_ind; intros v suf steps Hs;
    rewrite leaf_shift_eq.
  - simpl. eauto.
  - rewrite length_app in *. simpl length in *.
    destruct (Z.leb_spec 0 (Z.of_nat (length zs + 1) - 1)); [|lia].
    replace (Z.of_nat (length zs + 1) - 1) with (Z.of_nat (length zs)) by lia.
    rewrite fmap_app, <- (assoc_L (++)). simpl.
    rewrite getitem_keys_middle. simpl.
    rewrite ins_pos_snoc. destruct (key <? x) eqn:Hk.
    + destruct steps as [|s]; [lia|].
      replace (Z.of_nat (length zs) + 1) with (Z.of_nat (S (length zs))) by lia.
      rewrite setitem_nat
        by (rewrite length_app, length_fmap; simpl; lia).
      rewrite bind_Ok.
      replace (S (length zs)) with (length (Some <$> zs) + 1)%nat
        by (rewrite length_fmap; lia).
      rewrite insert_app_r. simpl.
      destruct (IH (Some x) (Some x :: suf) s) as [w Hw]; [lia|].
      rewrite Hw. exists w. pose proof (ins_pos_le key zs).
      rewrite take_app_le, drop_app_le by done.
      by rewrite fmap_app, <- (assoc_L (++)).
    + exists v. rewrite take_ge, drop_ge
        by (rewrite length_app; simpl; lia).
      rewrite fmap_app, <- (assoc_L (++)). simpl. do 2 f_equal. lia.
Qed.

(** ** Nodes of a tree *)

Lemma subnodes_unfold node :
  subnodes node = node :: (children node ≫= subnodes).
Proof. by destruct node. Qed.

Lemma elem_of_subnodes x node :
  x ∈ subnodes node ↔ x = node ∨ ∃ c, c ∈ children node ∧ x ∈ subnodes c.
Proof.
  rewrite subnodes_unfold, elem_of_cons, list_elem_of_bind. naive_solver.
Qed.

Lemma subnodes_self node : node ∈ subnodes node.
Proof. apply elem_of_subnodes. by left. Qed.

Lemma subnodes_child x c node :
  c ∈ children node → x ∈ subnodes c → x ∈ subnodes node.
Proof. intros. apply elem_of_subnodes. eauto. Qed.

Lemma every_unfold (P : BTreeNode → Prop) node :
  (∀ x, x ∈ subnodes node → P x) ↔
  P node ∧ Forall (λ c, ∀ x, x ∈ subnodes c → P x) (children node).
Proof.
  rewrite Forall_forall. split.
  - intros H. split; [apply H, subnodes_self|].
    intros c Hc x Hx. eapply H, subnodes_child; eauto.
  - intros [H0 H] x [->|(c & Hc & Hx)]%elem_of_subnodes; eauto.
Qed.

Lemma bk_unfold node :
  bk node ↔ node_ok node ∧ int_keys node ∧ Forall bk (children node).
Proof.
  unfold bk, bookkeeping, all_int_keys.
  rewrite (every_unfold node_ok), (every_unfold int_keys), !Forall_forall.
  naive_solver.
Qed.

Lemma int_keys_inv (ks : list (option Z)) :
  (∀ v, v ∈ ks → is_Some v) → ∃ zs, ks = Some <$> zs.
Proof.
  induction ks as [|v ks IH]; intros H.
  - by exists [].
  - destruct (H v) as [z ->]; [left|].
    destruct IH as [zs ->]; [intros; apply H; by right|].
    by exists (z :: zs).
Qed.

Lemma int_keys_fmap (zs : list Z) v : v ∈ Some <$> zs → is_Some v.
Proof. intros (z & -> & _)%list_elem_of_fmap. eauto. Qed.

Lemma bk_inv node :
  bk node →
  ∃ tn leaf zs cs,
    node = node_of tn leaf zs cs ∧
    (if leaf then cs = [] else length cs = S (length zs)) ∧
    Forall bk cs.
Proof.
  rewrite bk_unfold. destruct node as [tn leaf ks cs n].
  unfold node_ok, int_keys. simpl. intros ([-> Hc] & Hi & Hcs).
  destruct (int_keys_inv ks Hi) as [zs ->].
  exists tn, leaf, zs, cs. rewrite length_fmap in *. split; [done|].
  split; [|done]. destruct leaf; [by apply nil_length_inv|lia].
Qed.

Lemma bk_node_of tn (leaf : bool) zs (cs : list BTreeNode) :
  (if leaf then cs = [] else length cs = S (length zs)) →
  Forall bk cs →
  bk (node_of tn leaf zs cs).
Proof.
  intros Hc Hcs. apply bk_unfold. unfold node_ok, int_keys. simpl.
  rewrite length_fmap. split_and!; [done| |apply int_keys_fmap|done].
  destruct leaf; [by subst|lia].
Qed.

(** ** Depth *)

Lemma depth_unfold node :
  depth node = S (max_list (depth <$> children node)).
Proof. by destruct node. Qed.

Lemma depth_child c node : c ∈ children node → (depth c < depth node)%nat.
Proof.
  intros Hc. rewrite (depth_unfold node).
  apply Nat.lt_succ_r, max_list_elem_of_le. by apply list_elem_of_fmap_2.
Qed.

Lemma depth_bound node n :
  (∀ c, c ∈ children node → (depth c ≤ n)%nat) → (depth node ≤ S n)%nat.
Proof.
  rewrite depth_unfold. intros H. apply le_n_S.
  induction (children node) as [|c cs IH]; simpl; [lia|].
  apply Nat.max_lub; [apply H; left|apply IH; intros; apply H; by right].
Qed.

Lemma depth_split_left t c : (depth (split_left t c) ≤ depth c)%nat.
Proof.
  rewrite (depth_unfold c). apply depth_bound. simpl. intros x Hx.
  apply max_list_elem_of_le, list_elem_of_fmap_2.
  destruct (is_leaf c); [done|]. by eapply subseteq_take.
Qed.

Lemma depth_split_right t c : (depth (split_right t c) ≤ depth c)%nat.
Proof.
  rewrite (depth_unfold c). apply depth_bound. simpl. intros x Hx.
  apply max_list_elem_of_le, list_elem_of_fmap_2.
  destruct (is_leaf c); [by apply elem_of_nil in Hx|].
  by eapply subseteq_drop.
Qed.

(** ** [_split_child] *)

Lemma getitem_nonneg {A} (l : list A) i x :
  0 ≤ i → l !! Z.to_nat i = Some x → Py.getitem l i = Ok x.
Proof. intros Hi Hx. rewrite <- (Z2Nat.id i) by done. by apply getitem_nat. Qed.

Lemma setitem_nonneg {A} (l : list A) i x :
  0 ≤ i → (Z.to_nat i < length l)%nat →
  Py.setitem l i x = Ok (<[Z.to_nat i:=x]> l).
Proof. intros Hi Hx. rewrite <- (Z2Nat.id i) at 1 by done. by apply setitem_nat. Qed.

Lemma slice_from_nonneg {A} (l : list A) i :
  0 ≤ i → Py.slice_from l i = drop (Z.to_nat i) l.
Proof. intros Hi. rewrite <- (Z2Nat.id i) at 1 by done. apply slice_from_nat. Qed.

Lemma slice_to_nonneg {A} (l : list A) i :
  0 ≤ i → Py.slice_to l i = take (Z.to_nat i) l.
Proof. intros Hi. rewrite <- (Z2Nat.id i) at 1 by done. apply slice_to_nat. Qed.

Lemma insert_at_nonneg {A} (l : list A) i x :
  0 ≤ i → (Z.to_nat i ≤ length l)%nat →
  Py.insert_at l i x = take (Z.to_nat i) l ++ x :: drop (Z.to_nat i) l.
Proof. intros Hi Hx. rewrite <- (Z2Nat.id i) at 1 by done. by apply insert_at_nat. Qed.

Lemma insert_then_insert_at {A} (l : list A) i x y :
  (i < length l)%nat →
  take (S i) (<[i:=x]> l) ++ y :: drop (S i) (<[i:=x]> l)
  = take i l ++ x :: y :: drop (S i) l.
Proof.
  intros Hi. rewrite drop_insert_lt by lia.
  rewrite (take_S_r _ _ x) by (by apply list_lookup_insert_eq).
  rewrite take_insert_ge by lia. by rewrite <- (assoc_L (++)).
Qed.

Lemma split_child_run t parent (i : nat) c m :
  1 ≤ t →
  children parent !! i = Some c →
  keys c !! Z.to_nat (t - 1) = Some m →
  (i ≤ length (keys parent))%nat →
  _split_child t parent (Z.of_nat i)
  = Ok (mkNode (node_t parent) (is_leaf parent)
          (take i (keys parent) ++ m :: drop i (keys parent))
          (take i (children parent) ++
           split_left t c :: split_right t c :: drop (S i) (children parent))
          (n_keys parent + 1)).
Proof.
  intros Ht Hc Hm Hi. unfold _split_child.
  rewrite (getitem_nat _ _ _ Hc), bind_Ok.
  assert (0 ≤ t) as Ht0 by lia. assert (0 ≤ t - 1) as Ht1 by lia.
  rewrite (getitem_nonneg _ _ _ Ht1 Hm), bind_Ok.
  pose proof (lookup_lt_Some _ _ _ Hc) as Hlt.
  assert (Py.setitem (children parent) (Z.of_nat i)
            (split_left t c) = Ok (<[i:=split_left t c]> (children parent)))
    as Hset by (by apply setitem_nat).
  unfold split_left, split_right in *.
  destruct c as [tc [] kc cc nc]; simpl in *;
    rewrite ?(slice_from_nonneg _ _ Ht0), ?(slice_to_nonneg _ _ Ht0),
      ?(slice_to_nonneg _ _ Ht1);
    unfold set_n_keys, set_keys, set_children, BTreeNode_init; simpl;
    rewrite Hset, bind_Ok; simpl;
    rewrite insert_at_nat by done;
    (replace (Z.of_nat i + 1) with (Z.of_nat (S i)) by lia);
    rewrite insert_at_nat by (rewrite length_insert; lia);
    by rewrite insert_then_insert_at by done.
Qed.

Lemma split_left_node_of t tc (lc : bool) zc (cc : list BTreeNode) :
  Z.of_nat (length zc) = 2 * t - 1 →
  split_left t (node_of tc lc zc cc)
  = node_of tc lc (take (Z.to_nat (t - 1)) zc)
      (if lc then cc else take (Z.to_nat t) cc).
Proof.
  intros Hn. unfold split_left, node_of. simpl.
  rewrite fmap_take, length_take. f_equal. lia.
Qed.

Lemma split_right_node_of t tc (lc : bool) zc (cc : list BTreeNode) :
  Z.of_nat (length zc) = 2 * t - 1 →
  split_right t (node_of tc lc zc cc)
  = node_of t lc (drop (Z.to_nat t) zc)
      (if lc then [] else drop (Z.to_nat t) cc).
Proof.
  intros Hn. unfold split_right, node_of. simpl.
  rewrite fmap_drop, length_drop. f_equal. lia.
Qed.

Lemma full_median t (zc : list Z) :
  Z.of_nat (length zc) = 2 * t - 1 →
  ∃ m, zc !! Z.to_nat (t - 1) = Some m.
Proof. intros Hn. apply lookup_lt_is_Some_2. lia. Qed.

Lemma bk_split_left t c : bk c → n_keys c = 2 * t - 1 → bk (split_left t c).
Proof.
  intros (tc & lc & zc & cc & -> & Hc & Hcs)%bk_inv Hn. simpl in Hn.
  rewrite split_left_node_of by done. apply bk_node_of.
  - destruct lc; [done|]. rewrite !length_take. lia.
  - destruct lc; [done|]. by apply Forall_take.
Qed.

Lemma bk_split_right t c : bk c → n_keys c = 2 * t - 1 → bk (split_right t c).
Proof.
  intros (tc & lc & zc & cc & -> & Hc & Hcs)%bk_inv Hn. simpl in Hn.
  rewrite split_right_node_of by done. apply bk_node_of.
  - destruct lc; [done|]. rewrite !length_drop. lia.
  - destruct lc; [done|]. by apply Forall_drop.
Qed.

(** ** [_insert_non_full] follows [ins_rel] *)

Lemma length_ins_list key zs : length (ins_list key zs) = S (length zs).
Proof.
  unfold ins_list. pose proof (ins_pos_le key zs).
  rewrite length_app. simpl. rewrite length_take, length_drop. lia.
Qed.

Lemma descend_scan_keys key zs :
  descend_scan (Some <$> zs) key (Z.of_nat (length zs) - 1) (length zs)
  = Ok (Z.of_nat (ins_pos key zs) - 1).
Proof.
  rewrite <- (app_nil_r (Some <$> zs)). by apply descend_scan_spec.
Qed.

Lemma leaf_insert_keys key zs :
  ('(ks, i) ← leaf_shift ((Some <$> zs) ++ [None]) key
                (Z.of_nat (length zs) - 1) (length zs);
   Py.setitem ks (i + 1) (Some key))
  = Ok (Some <$> ins_list key zs).
Proof.
  destruct (leaf_shift_spec key zs None [] (length zs)) as [w ->]; [done|].
  rewrite bind_Ok. pose proof (ins_pos_le key zs) as Hp.
  replace (Z.of_nat (ins_pos key zs) - 1 + 1)
    with (Z.of_nat (ins_pos key zs)) by lia.
  rewrite setitem_nat
    by (rewrite length_app, length_fmap, length_take; simpl; lia).
  f_equal. unfold ins_list.
  rewrite insert_app_r_alt by (rewrite length_fmap, length_take; lia).
  rewrite length_fmap, length_take, Nat.min_l, Nat.sub_diag by done.
  simpl. by rewrite app_nil_r, fmap_app.
Qed.

Lemma insert_non_full_eq fuel t node key :
  _insert_non_full (S fuel) t node key =
    let i := n_keys node - 1 in
    if is_leaf node then
      let ks := keys node ++ [None] in
      '(ks, i) ← leaf_shift ks key i (Z.to_nat (n_keys node));
      ks ← Py.setitem ks (i + 1) (Some key);
      Ok (set_n_keys (set_keys node ks) (n_keys node + 1))
    else
      i ← descend_scan (keys node) key i (Z.to_nat (n_keys node));
      let i := i + 1 in
      child ← Py.getitem (children node) i;
      '(node, i) ←
        (if n_keys child =? 2 * t - 1 then
           node' ← _split_child t node i;
           v ← Py.getitem (keys node') i;
           x ← Py.as_int v;
           Ok (node', if key >? x then i + 1 else i)
         else Ok (node, i));
      child ← Py.getitem (children node) i;
      child' ← _insert_non_full fuel t child key;
      cs ← Py.setitem (children node) i child';
      Ok (set_children node cs).
Proof. reflexivity. Qed.

Lemma bind_assoc {A B C} (m : result A) (f : A → result B) (g : B → result C) :
  (m ≫= f) ≫= g = m ≫= (λ a, f a ≫= g).
Proof. by destruct m. Qed.

(** More fuel than the descent needs changes nothing. *)
Lemma insert_non_full_more_fuel t key : ∀ fuel node r,
  _insert_non_full fuel t node key = Ok r →
  _insert_non_full (S fuel) t node key = Ok r.
Proof.
  induction fuel as [|fuel IH]; intros node r; [done|].
  rewrite (insert_non_full_eq (S fuel)), (insert_non_full_eq fuel). cbn zeta.
  destruct (is_leaf node); [done|].
  destruct (descend_scan _ _ _ _) as [j| |]; [|done..]. rewrite !bind_Ok.
  destruct (Py.getitem (children node) (j + 1)) as [c| |]; [|done..].
  rewrite !bind_Ok.
  destruct (if n_keys c =? 2 * t - 1 then _ else _) as [[node1 i1]| |];
    [|done..].
  cbn [mbind result_bind].
  destruct (Py.getitem (children node1) i1) as [c1| |]; [|done..].
  rewrite !bind_Ok.
  destruct (_insert_non_full fuel t c1 key) as [c1'| |] eqn:Hrec;
    [|intros [=]..].
  by rewrite (IH _ _ Hrec).
Qed.

Lemma node_of_insert_key tn leaf zs (p : nat) m cs :
  (p ≤ length zs)%nat →
  mkNode tn leaf (take p (Some <$> zs) ++ Some m :: drop p (Some <$> zs)) cs
    (Z.of_nat (length zs) + 1)
  = node_of tn leaf (take p zs ++ m :: drop p zs) cs.
Proof.
  intros Hp. unfold node_of.
  rewrite fmap_app, fmap_cons, fmap_take, fmap_drop. f_equal.
  rewrite length_app. simpl. rewrite length_take, length_drop. lia.
Qed.

Lemma insert_non_full_run t key : ∀ fuel node,
  bk node → (depth node ≤ fuel)%nat →
  ∃ node', _insert_non_full fuel t node key = Ok node' ∧
           ins_rel t key node node'.
Proof.
  induction fuel as [|fuel IH]; intros node Hbk Hd.
  { rewrite depth_unfold in Hd. lia. }
  destruct (bk_inv _ Hbk) as (tn & leaf & zs & cs & -> & Hc & Hcs).
  rewrite insert_non_full_eq. cbn [n_keys is_leaf keys children node_of].
  rewrite Nat2Z.id. destruct leaf.
  - (* leaf *)
    pose proof (leaf_insert_keys key zs) as Hleaf.
    destruct (leaf_shift _ _ _ _) as [[ks i]| |]; try done.
    simpl in Hleaf |- *. rewrite Hleaf, bind_Ok.
    eexists. split; [|apply ins_leaf].
    unfold node_of, set_n_keys, set_keys. simpl.
    rewrite length_ins_list. do 2 f_equal. lia.
  - (* internal *)
    rewrite descend_scan_keys, bind_Ok.
    set (p := ins_pos key zs).
    replace (Z.of_nat p - 1 + 1) with (Z.of_nat p) by lia.
    pose proof (ins_pos_le key zs) as Hp. fold p in Hp.
    destruct (lookup_lt_is_Some_2 cs p) as [c Hcp]; [lia|].
    rewrite (getitem_nat _ _ _ Hcp), bind_Ok.
    assert (bk c) as Hbkc by (by eapply Forall_lookup_1).
    assert (depth c ≤ fuel)%nat as Hdc.
    { apply Nat.lt_succ_r. eapply Nat.lt_le_trans; [|exact Hd].
      apply depth_child. simpl. by eapply list_elem_of_lookup_2. }
    destruct (Z.eqb_spec (n_keys c) (2 * t - 1)) as [Hfull|Hfull].
    + (* the child is full *)
      destruct (bk_inv _ Hbkc) as (tc & lc & zc & cc & Hceq & Hcc & Hccs).
      assert (Z.of_nat (length zc) = 2 * t - 1) as Hlen by (by subst c).
      destruct (full_median t zc Hlen) as [m Hm].
      assert (keys c !! Z.to_nat (t - 1) = Some (Some m)) as Hkm.
      { subst c. simpl. by rewrite list_lookup_fmap, Hm. }
      rewrite (split_child_run t _ p c (Some m))
        by (simpl; rewrite ?length_fmap; (lia || done)).
      rewrite bind_Ok. cbn [keys children node_of].
      rewrite (getitem_nat _ p (Some m)).
      2:{ rewrite lookup_app_r; rewrite length_take, length_fmap, Nat.min_l by lia;
            [by rewrite Nat.sub_diag|lia]. }
      rewrite !bind_Ok. simpl Py.as_int. rewrite bind_Ok.
      set (cs' := take p cs ++ split_left t c :: split_right t c :: drop (S p) cs).
      assert (length (take p cs) = p) as Htk by (rewrite length_take; lia).
      assert (cs' !! p = Some (split_left t c)) as HL.
      { unfold cs'. rewrite lookup_app_r by lia. by rewrite Htk, Nat.sub_diag. }
      assert (cs' !! S p = Some (split_right t c)) as HR.
      { unfold cs'. rewrite lookup_app_r by lia.
        by replace (S p - length (take p cs))%nat with 1%nat by lia. }
      assert (length cs' = S (length cs)) as Hlen'.
      { unfold cs'. rewrite length_app. simpl. rewrite Htk, length_drop. lia. }
      pose proof (ins_split t key tn zs cs c m) as Hrel. fold p in Hrel.
      fold cs' in Hrel.
      destruct (key >? m) eqn:Hkm'.
      * destruct (IH (split_right t c)) as (c' & Hrun & Hr);
          [by apply bk_split_right
          |pose proof (depth_split_right t c); lia|].
        replace (Z.of_nat p + 1) with (Z.of_nat (S p)) by lia.
        cbn [mbind result_bind children node_t is_leaf n_keys keys node_of].
        rewrite (getitem_nat _ _ _ HR), bind_Ok, Hrun, bind_Ok.
        rewrite setitem_nat by lia. rewrite bind_Ok.
        eexists. split; [|apply Hrel; eauto].
        unfold set_children. simpl. by rewrite node_of_insert_key.
      * destruct (IH (split_left t c)) as (c' & Hrun & Hr);
          [by apply bk_split_left
          |pose proof (depth_split_left t c); lia|].
        cbn [mbind result_bind children node_t is_leaf n_keys keys node_of].
        rewrite (getitem_nat _ _ _ HL), bind_Ok, Hrun, bind_Ok.
        rewrite setitem_nat by lia. rewrite bind_Ok.
        eexists. split; [|apply Hrel; eauto].
        unfold set_children. simpl. by rewrite node_of_insert_key.
    + (* the child has room *)
      rewrite bind_Ok. cbn [children node_of].
      rewrite (getitem_nat _ _ _ Hcp), bind_Ok.
      destruct (IH c Hbkc Hdc) as (c' & Hrun & Hr).
      rewrite Hrun, bind_Ok.
      rewrite setitem_nat by (by eapply lookup_lt_Some). rewrite bind_Ok.
      eexists. split; [done|]. by eapply ins_descend.
Qed.

(** ** [insert] follows [ins_rel] from the grown root *)

Lemma bk_node_of_inv tn (leaf : bool) zs (cs : list BTreeNode) :
  bk (node_of tn leaf zs cs) →
  (if leaf then cs = [] else length cs = S (length zs)) ∧ Forall bk cs.
Proof.
  rewrite bk_unfold. unfold node_ok. simpl. rewrite length_fmap.
  intros ([_ Hc] & _ & Hcs). split; [|done].
  destruct leaf; [by apply nil_length_inv|lia].
Qed.

Lemma bk_grow t r : bk r → bk (grow t r).
Proof.
  intros Hr. unfold grow.
  destruct (Z.eqb_spec (n_keys r) (2 * t - 1)) as [Hfull|]; [|done].
  destruct (keys r !! _) as [m|] eqn:Hm; [|done].
  pose proof (bk_split_left t r Hr Hfull) as HL.
  pose proof (bk_split_right t r Hr Hfull) as HR.
  apply bk_unfold. unfold node_ok, int_keys. simpl. split_and!; try done.
  - intros v ->%list_elem_of_singleton.
    apply bk_unfold in Hr as (_ & Hi & _). apply Hi.
    by eapply list_elem_of_lookup_2.
  - by apply Forall_cons_2, Forall_cons_2, Forall_nil.
Qed.

Lemma depth_grow t r : (depth (grow t r) ≤ S (depth r))%nat.
Proof.
  unfold grow. destruct (_ =? _); [|lia].
  destruct (keys r !! _); [|lia].
  apply depth_bound. simpl.
  intros c [->|[->|[]%elem_of_nil]%elem_of_cons]%elem_of_cons.
  - apply depth_split_left.
  - apply depth_split_right.
Qed.

Lemma grow_full t tr lr zr cr m :
  Z.of_nat (length zr) = 2 * t - 1 →
  zr !! Z.to_nat (t - 1) = Some m →
  grow t (node_of tr lr zr cr)
  = mkNode t false [Some m]
      [split_left t (node_of tr lr zr cr); split_right t (node_of tr lr zr cr)] 1.
Proof.
  intros Hfull Hm. unfold grow. cbn [n_keys keys node_of].
  rewrite list_lookup_fmap, Hm. simpl.
  by destruct (Z.eqb_spec (Z.of_nat (length zr)) (2 * t - 1)).
Qed.

Lemma grow_room t r : n_keys r ≠ 2 * t - 1 → grow t r = r.
Proof.
  intros Hn. unfold grow. by destruct (Z.eqb_spec (n_keys r) (2 * t - 1)).
Qed.

Lemma insert_run tr key :
  bk (root tr) →
  ∃ r', insert tr key = Ok (mkBTree (order tr) r') ∧
        ins_rel (order tr) key (grow (order tr) (root tr)) r'.
Proof.
  intros Hbk. destruct tr as [t r]. simpl in *.
  destruct (insert_non_full_run t key (S (depth r)) (grow t r))
    as (r' & Hrun & Hrel); [by apply bk_grow|apply depth_grow|].
  exists r'. split; [|done]. unfold insert.
  cbn [order root]. clear Hrel.
  destruct (Z.eqb_spec (n_keys r) (2 * t - 1)) as [Hfull|Hfull].
  - destruct (bk_inv _ Hbk) as (tr & lr & zr & cr & -> & _).
    cbn [n_keys node_of] in Hfull.
    destruct (full_median t zr Hfull) as [m Hm].
    rewrite (grow_full _ _ _ _ _ m) in Hrun by done.
    change (Py.insert_at (children (BTreeNode_init t false)) 0
              (node_of tr lr zr cr)) with [node_of tr lr zr cr].
    rewrite (split_child_run t _ 0 (node_of tr lr zr cr) (Some m));
      [|lia|done|by simpl; rewrite list_lookup_fmap, Hm|simpl; lia].
    rewrite bind_Ok. cbn [node_t is_leaf keys children n_keys set_children
      BTreeNode_init take drop app].
    change (0 + 1) with 1. by rewrite Hrun.
  - rewrite grow_room in Hrun by done. by rewrite Hrun.
Qed.

(** ** The bookkeeping invariant is preserved *)

Lemma bk_ins_rel t key node node' :
  ins_rel t key node node' → bk node → bk node'.
Proof.
  induction 1 as [tn zs cs|tn zs cs c c' Hc Hn Hrel IH
                 |tn zs cs c m c' Hc Hn Hm Hrel IH];
    intros [Hlen Hcs]%bk_node_of_inv.
  - apply bk_node_of; [done|done].
  - apply bk_node_of; [by rewrite length_insert|].
    apply Forall_insert; [done|]. apply IH. by eapply Forall_lookup_1.
  - assert (bk c) as Hbkc by (by eapply Forall_lookup_1).
    pose proof (ins_pos_le key zs) as Hp.
    apply bk_node_of.
    + rewrite length_insert, !length_app. simpl.
      rewrite !length_take, !length_drop. lia.
    + apply Forall_insert.
      * apply Forall_app. split; [by apply Forall_take|].
        apply Forall_cons_2; [by apply bk_split_left|].
        apply Forall_cons_2; [by apply bk_split_right|by apply Forall_drop].
      * apply IH. destruct (key >? m);
          [by apply bk_split_right|by apply bk_split_left].
Qed.

(** ** The shape invariant is preserved *)

Lemma shape_unfold lo t h node :
  shape lo t h node ↔
  node_ok node ∧ int_keys node ∧ lo ≤ n_keys node ≤ 2 * t - 1 ∧
  match h with
  | O => is_leaf node = true
  | S h' => is_leaf node = false ∧ Forall (shape (t - 1) t h') (children node)
  end.
Proof. by destruct h. Qed.

Lemma shape_node_of lo t h tn (leaf : bool) zs (cs : list BTreeNode) :
  shape lo t h (node_of tn leaf zs cs) ↔
  (if leaf then cs = [] else length cs = S (length zs)) ∧
  lo ≤ Z.of_nat (length zs) ≤ 2 * t - 1 ∧
  match h with
  | O => leaf = true
  | S h' => leaf = false ∧ Forall (shape (t - 1) t h') cs
  end.
Proof.
  rewrite shape_unfold. unfold node_ok, int_keys. simpl.
  rewrite length_fmap. split.
  - intros ([_ Hc] & _ & Hn & Hh). split_and!; [|lia|lia|done].
    destruct leaf; [by apply nil_length_inv|lia].
  - intros (Hc & Hn & Hh). split_and!; [done| |apply int_keys_fmap|lia|lia|done].
    destruct leaf; [by subst|lia].
Qed.

Lemma shape_inv lo t h node :
  shape lo t h node →
  ∃ tn leaf zs cs, node = node_of tn leaf zs cs.
Proof.
  rewrite shape_unfold. destruct node as [tn leaf ks cs n].
  unfold node_ok, int_keys. simpl. intros ([-> _] & Hi & _).
  destruct (int_keys_inv ks Hi) as [zs ->]. exists tn, leaf, zs, cs.
  unfold node_of. by rewrite length_fmap.
Qed.

Lemma shape_bk lo t h node : shape lo t h node → bk node.
Proof.
  revert lo node. induction h as [|h IH]; intros lo node;
    rewrite shape_unfold, bk_unfold; intros (Hok & Hi & _ & Hh).
  - split_and!; [done..|]. destruct Hok as [_ Hc]. rewrite Hh in Hc.
    apply nil_length_inv in Hc as ->. constructor.
  - destruct Hh as [_ Hcs]. split_and!; [done..|].
    eapply Forall_impl; [exact Hcs|]. intros c. apply IH.
Qed.

Lemma shape_weaken lo lo' t h node :
  lo' ≤ lo → shape lo t h node → shape lo' t h node.
Proof. rewrite !shape_unfold. intros ? (?&?&?&?). split_and!; [done..|lia|lia|done]. Qed.

Lemma shape_split_left lo t h c :
  1 ≤ t → shape lo t h c → n_keys c = 2 * t - 1 →
  shape (t - 1) t h (split_left t c).
Proof.
  intros Ht Hs Hn. destruct (shape_inv _ _ _ _ Hs) as (tc & lc & zc & cc & ->).
  simpl in Hn. rewrite split_left_node_of by done.
  apply shape_node_of in Hs as (Hc & Hk & Hh). apply shape_node_of.
  rewrite !length_take. split_and!; [|lia|lia|].
  - destruct lc; simpl in *; rewrite ?length_take; [done|lia].
  - destruct h; [done|]. destruct Hh as [-> Hcs]. split; [done|].
    by apply Forall_take.
Qed.

Lemma shape_split_right lo t h c :
  1 ≤ t → shape lo t h c → n_keys c = 2 * t - 1 →
  shape (t - 1) t h (split_right t c).
Proof.
  intros Ht Hs Hn. destruct (shape_inv _ _ _ _ Hs) as (tc & lc & zc & cc & ->).
  simpl in Hn. rewrite split_right_node_of by done.
  apply shape_node_of in Hs as (Hc & Hk & Hh). apply shape_node_of.
  rewrite !length_drop. split_and!; [|lia|lia|].
  - destruct lc; simpl in *; rewrite ?length_drop; [done|lia].
  - destruct h; [done|]. destruct Hh as [-> Hcs]. split; [done|].
    by apply Forall_drop.
Qed.

Lemma n_keys_split_left t c : n_keys (split_left t c) = t - 1.
Proof. done. Qed.

Lemma n_keys_split_right t c : n_keys (split_right t c) = t - 1.
Proof. done. Qed.

Lemma shape_ins_rel t key node node' :
  1 ≤ t →
  ins_rel t key node node' →
  ∀ lo h, shape lo t h node → n_keys node < 2 * t - 1 → shape lo t h node'.
Proof.
  intros Ht.
  induction 1 as [tn zs cs|tn zs cs c c' Hc Hn Hrel IH
                 |tn zs cs c m c' Hc Hn Hm Hrel IH];
    intros lo h (Hlen & Hk & Hh)%shape_node_of Hroom; simpl in Hroom;
    apply shape_node_of.
  - rewrite length_ins_list. split_and!; [done|lia|lia|done].
  - split_and!; [by rewrite length_insert|lia|lia|].
    destruct h as [|h]; [done|]. destruct Hh as [_ Hcs]. split; [done|].
    apply Forall_insert; [done|].
    pose proof (Forall_lookup_1 _ _ _ _ Hcs Hc) as Hsc.
    apply IH; [done|]. apply shape_unfold in Hsc. lia.
  - pose proof (ins_pos_le key zs) as Hp.
    destruct h as [|h]; [done|]. destruct Hh as [_ Hcs].
    pose proof (Forall_lookup_1 _ _ _ _ Hcs Hc) as Hsc.
    rewrite length_insert, !length_app. simpl.
    rewrite !length_take, !length_drop. split_and!; [lia|lia|lia|done|].
    apply Forall_insert.
    + apply Forall_app. split; [by apply Forall_take|].
      apply Forall_cons_2; [by eapply shape_split_left|].
      apply Forall_cons_2; [by eapply shape_split_right|by apply Forall_drop].
    + apply IH.
      * destruct (key >? m);
          [by eapply shape_split_right|by eapply shape_split_left].
      * destruct (key >? m); simpl; lia.
Qed.

Lemma shape_grow t h r :
  2 ≤ t → shape 0 t h r →
  shape 0 t (if n_keys r =? 2 * t - 1 then S h else h) (grow t r) ∧
  n_keys (grow t r) < 2 * t - 1.
Proof.
  intros Ht Hs. destruct (Z.eqb_spec (n_keys r) (2 * t - 1)) as [Hfull|Hfull].
  - destruct (shape_inv _ _ _ _ Hs) as (tr & lr & zr & cr & ->).
    simpl in Hfull. destruct (full_median t zr Hfull) as [m Hm].
    rewrite (grow_full _ _ _ _ _ m) by done. simpl. split; [|lia].
    apply (shape_node_of 0 t (S h) t false [m]). simpl.
    split_and!; [done|lia|lia|done|].
    apply Forall_cons_2; [eapply shape_split_left; [lia|done|done]|].
    apply Forall_cons_2; [eapply shape_split_right; [lia|done|done]|].
    constructor.
  - rewrite grow_room by done. split; [done|].
    apply shape_unfold in Hs. lia.
Qed.

(** ** In-order traversal *)

Section weave.
Context {A : Type}.
Implicit Types (cs : list (list A)) (ks : list A).

Lemma weave_cons c cs ks : weave (c :: cs) ks = c ++ weave_tail cs ks.
Proof. by destruct ks. Qed.

Lemma weave_app_eq cs1 cs2 ks1 ks2 :
  length cs1 = length ks1 →
  weave (cs1 ++ cs2) (ks1 ++ ks2) = weave cs1 ks1 ++ weave cs2 ks2.
Proof.
  revert ks1. induction cs1 as [|c cs1 IH]; intros [|k ks1] Hlen;
    simplify_eq/=; [done|].
  by rewrite IH, <- (assoc_L (++)).
Qed.

Lemma weave_app_mid cs1 cs2 ks1 m ks2 :
  length cs1 = S (length ks1) →
  weave (cs1 ++ cs2) (ks1 ++ m :: ks2) = weave cs1 ks1 ++ m :: weave cs2 ks2.
Proof.
  revert ks1. induction cs1 as [|c cs1 IH]; intros [|k ks1] Hlen;
    simplify_eq/=.
  - destruct cs1; [|done]. simpl. by rewrite app_nil_r.
  - by rewrite IH, <- (assoc_L (++)).
Qed.

Lemma weave_snoc cs c ks k :
  length cs = length ks →
  weave (cs ++ [c]) (ks ++ [k]) = weave cs ks ++ c ++ [k].
Proof. intros Hlen. by rewrite weave_app_eq. Qed.
End weave.

Lemma omap_id_Some (zs : list Z) : omap id (Some <$> zs) = zs.
Proof. induction zs as [|z zs IH]; [done|]. simpl. f_equal. exact IH. Qed.

Lemma inorder_z_unfold node :
  inorder_z node = weave (inorder_z <$> children node) (omap id (keys node)).
Proof. by destruct node. Qed.

Lemma inorder_z_node_of tn leaf zs cs :
  inorder_z (node_of tn leaf zs cs) = weave (inorder_z <$> cs) zs.
Proof.
  rewrite inorder_z_unfold. cbn [keys children node_of].
  by rewrite omap_id_Some.
Qed.

(** The part of the traversal before the subtree of child [p], and the
    part after it. *)
Lemma inorder_z_at tn leaf zs cs (p : nat) c :
  cs !! p = Some c → (p ≤ length zs)%nat →
  inorder_z (node_of tn leaf zs cs)
  = weave (inorder_z <$> take p cs) (take p zs) ++
    inorder_z c ++
    weave_tail (inorder_z <$> drop (S p) cs) (drop p zs).
Proof.
  intros Hc Hp. pose proof (lookup_lt_Some _ _ _ Hc) as Hlt.
  rewrite inorder_z_node_of.
  rewrite <- (take_drop_middle cs p c Hc) at 1.
  rewrite <- (take_drop p zs) at 1.
  rewrite fmap_app, weave_app_eq
    by (rewrite length_fmap, !length_take; lia).
  by rewrite fmap_cons, weave_cons.
Qed.

Lemma inorder_z_insert tn leaf zs cs (p : nat) c' :
  (p < length cs)%nat → (p ≤ length zs)%nat →
  inorder_z (node_of tn leaf zs (<[p:=c']> cs))
  = weave (inorder_z <$> take p cs) (take p zs) ++
    inorder_z c' ++
    weave_tail (inorder_z <$> drop (S p) cs) (drop p zs).
Proof.
  intros Hlt Hp.
  rewrite (inorder_z_at _ _ _ _ p c') by (by rewrite ?list_lookup_insert_eq).
  by rewrite take_insert_ge, drop_insert_lt by lia.
Qed.

Lemma inorder_z_two tn leaf zs cs (p : nat) m a b :
  (p ≤ length cs)%nat → (p ≤ length zs)%nat →
  inorder_z (node_of tn leaf (take p zs ++ m :: drop p zs)
               (take p cs ++ a :: b :: drop (S p) cs))
  = weave (inorder_z <$> take p cs) (take p zs) ++
    inorder_z a ++ m :: inorder_z b ++
    weave_tail (inorder_z <$> drop (S p) cs) (drop p zs).
Proof.
  intros Hc Hp. rewrite inorder_z_node_of.
  rewrite fmap_app, weave_app_eq
    by (rewrite length_fmap, !length_take; lia).
  rewrite !fmap_cons. cbn [weave]. unfold weave_tail.
  by destruct (drop p zs).
Qed.

Lemma insert_two_l {A} (l r : list A) (p : nat) a b x :
  length l = p → <[p:=x]> (l ++ a :: b :: r) = l ++ x :: b :: r.
Proof. intros <-. by rewrite insert_app_r_alt, Nat.sub_diag by lia. Qed.

Lemma insert_two_r {A} (l r : list A) (p : nat) a b x :
  length l = p → <[S p:=x]> (l ++ a :: b :: r) = l ++ a :: x :: r.
Proof.
  intros <-. rewrite insert_app_r_alt by lia.
  by replace (S (length l) - length l)%nat with 1%nat by lia.
Qed.

(** Splitting a full node does not change its traversal. *)
Lemma inorder_z_split t c m :
  bk c → n_keys c = 2 * t - 1 →
  keys c !! Z.to_nat (t - 1) = Some (Some m) →
  inorder_z c = inorder_z (split_left t c) ++ m :: inorder_z (split_right t c).
Proof.
  intros (tc & lc & zc & cc & -> & Hc & Hcs)%bk_inv Hn Hm. simpl in Hn, Hm.
  rewrite list_lookup_fmap in Hm.
  destruct (zc !! Z.to_nat (t - 1)) as [m'|] eqn:Hm';
    simpl in Hm; simplify_eq.
  rewrite split_left_node_of, split_right_node_of by done.
  rewrite !inorder_z_node_of.
  assert (zc = take (Z.to_nat (t - 1)) zc ++ m :: drop (Z.to_nat t) zc) as Hzc.
  { rewrite <- (take_drop_middle zc _ m Hm') at 1.
    by replace (S (Z.to_nat (t - 1))) with (Z.to_nat t) by lia. }
  destruct lc.
  - subst cc. simpl. done.
  - rewrite <- (take_drop (Z.to_nat t) cc) at 1. rewrite Hzc at 1.
    rewrite fmap_app, weave_app_mid; [done|].
    rewrite length_fmap, !length_take. lia.
Qed.

Lemma last_take_ins_pos key zs x :
  last (take (ins_pos key zs) zs) = Some x → x ≤ key.
Proof.
  destruct (ins_pos key zs) as [|p] eqn:Hp; [done|].
  destruct (ins_pos_prev _ _ _ Hp) as (x' & Hx' & Hle).
  rewrite (take_S_r _ _ x'), last_snoc by done. by intros [= <-].
Qed.

Lemma head_drop_ins_pos key zs y :
  head (drop (ins_pos key zs) zs) = Some y → key < y.
Proof.
  pose proof (ins_pos_drop key zs) as Hd.
  destruct (drop _ zs) as [|y' l]; [done|]. intros [= <-].
  by apply Forall_cons_1 in Hd as [? _].
Qed.

Lemma pre_last_le key zs (cs : list BTreeNode) x :
  (ins_pos key zs < length cs)%nat →
  last (weave (inorder_z <$> take (ins_pos key zs) cs)
          (take (ins_pos key zs) zs)) = Some x →
  x ≤ key.
Proof.
  intros Hlt. destruct (ins_pos key zs) as [|p] eqn:Hp; [done|].
  destruct (ins_pos_prev _ _ _ Hp) as (x' & Hx' & Hle).
  destruct (lookup_lt_is_Some_2 cs p) as [c0 Hc0]; [lia|].
  rewrite (take_S_r _ _ x'), (take_S_r _ _ c0), fmap_app by done.
  simpl. rewrite weave_snoc
    by (pose proof (lookup_lt_Some _ _ _ Hx');
        rewrite length_fmap, !length_take; lia).
  rewrite !(assoc_L (++)), last_snoc. by intros [= <-].
Qed.

Lemma post_head_ge key zs (cs : list BTreeNode) y :
  length cs = S (length zs) →
  head (weave_tail (inorder_z <$> drop (S (ins_pos key zs)) cs)
          (drop (ins_pos key zs) zs)) = Some y →
  key < y.
Proof.
  intros Hlen Hy. apply (head_drop_ins_pos key zs).
  unfold weave_tail in Hy.
  destruct (drop (ins_pos key zs) zs) as [|k ks] eqn:Hd; [|done].
  apply (f_equal length) in Hd. rewrite length_drop in Hd. simpl in Hd.
  rewrite drop_ge in Hy by lia. done.
Qed.

Lemma ins_rel_inorder t key node node' :
  ins_rel t key node node' → bk node →
  ∃ X Y, inorder_z node = X ++ Y ∧ inorder_z node' = X ++ key :: Y ∧
         (∀ x, last X = Some x → x ≤ key) ∧
         (∀ y, head Y = Some y → key ≤ y).
Proof.
  induction 1 as [tn zs cs|tn zs cs c c' Hc Hn Hrel IH
                 |tn zs cs c m c' Hc Hn Hm Hrel IH];
    intros [Hlen Hcs]%bk_node_of_inv.
  - subst cs. rewrite !inorder_z_node_of. simpl.
    exists (take (ins_pos key zs) zs), (drop (ins_pos key zs) zs).
    split_and!; [by rewrite take_drop|done|apply last_take_ins_pos|].
    intros y Hy%head_drop_ins_pos. lia.
  - pose proof (lookup_lt_Some _ _ _ Hc) as Hlt.
    pose proof (ins_pos_le key zs) as Hp.
    destruct IH as (X & Y & HX & HX' & Hlast & Hhead);
      [by eapply Forall_lookup_1|].
    rewrite (inorder_z_at _ _ _ _ _ c Hc Hp), inorder_z_insert by done.
    rewrite HX, HX'.
    set (pre := weave _ (take _ zs)). set (post := weave_tail _ _).
    exists (pre ++ X), (Y ++ post).
    split_and!; [app_norm|app_norm| |].
    + intros x [?|[_ ?]]%last_app_Some; [eauto|by eapply pre_last_le].
    + intros y [?|[_ ?%post_head_ge]]%head_app_Some; [eauto|lia|done].
  - pose proof (lookup_lt_Some _ _ _ Hc) as Hlt.
    pose proof (ins_pos_le key zs) as Hp.
    assert (bk c) as Hbkc by (by eapply Forall_lookup_1).
    rewrite (inorder_z_at _ _ _ _ _ c Hc Hp).
    rewrite (inorder_z_split t c m) by done.
    destruct (key >? m) eqn:Hkm.
    + destruct IH as (X & Y & HX & HX' & Hlast & Hhead);
        [by apply bk_split_right|].
      rewrite insert_two_r by (rewrite length_take; lia).
      rewrite inorder_z_two by lia. rewrite HX, HX'.
      set (pre := weave _ (take _ zs)). set (post := weave_tail _ _).
      exists (pre ++ inorder_z (split_left t c) ++ m :: X), (Y ++ post).
      split_and!; [app_norm|app_norm| |].
      * intros x. rewrite (assoc_L (++)), (cons_middle m), (assoc_L (++)).
        intros [?|[_ Hx]]%last_app_Some; [eauto|].
        rewrite last_snoc in Hx. simplify_eq. lia.
      * intros y [?|[_ ?%post_head_ge]]%head_app_Some; [eauto|lia|done].
    + destruct IH as (X & Y & HX & HX' & Hlast & Hhead);
        [by apply bk_split_left|].
      rewrite insert_two_l by (rewrite length_take; lia).
      rewrite inorder_z_two by lia. rewrite HX, HX'.
      set (pre := weave _ (take _ zs)). set (post := weave_tail _ _).
      exists (pre ++ X), (Y ++ m :: inorder_z (split_right t c) ++ post).
      split_and!; [app_norm|app_norm| |].
      * intros x [?|[_ ?]]%last_app_Some; [eauto|by eapply pre_last_le].
      * intros y [?|[_ Hy]]%head_app_Some; [eauto|]. simpl in Hy.
        simplify_eq. lia.
Qed.

(** ** Sorted lists *)

Lemma sorted_le_last X x xl :
  StronglySorted Z.le X → last X = Some xl → x ∈ X → x ≤ xl.
Proof.
  intros HS [X' ->]%last_Some Hx.
  apply StronglySorted_app in HS as (Hlt & _ & _).
  apply elem_of_app in Hx as [Hx|Hx%list_elem_of_singleton]; [|lia].
  apply Hlt; [done|]. by apply list_elem_of_singleton.
Qed.

Lemma sorted_le_head Y y yh :
  StronglySorted Z.le Y → head Y = Some yh → y ∈ Y → yh ≤ y.
Proof.
  intros HS [Y' ->]%head_Some Hy.
  apply StronglySorted_cons in HS as [Hall _].
  apply elem_of_cons in Hy as [->|Hy]; [lia|].
  rewrite Forall_forall in Hall. by apply Hall.
Qed.

Lemma sorted_le_insert X Y key :
  StronglySorted Z.le (X ++ Y) →
  (∀ x, last X = Some x → x ≤ key) →
  (∀ y, head Y = Some y → key ≤ y) →
  StronglySorted Z.le (X ++ key :: Y).
Proof.
  intros HS Hlast Hhead.
  pose proof HS as (HXY & HX & HY)%StronglySorted_app.
  assert (∀ x, x ∈ X → x ≤ key) as HXk.
  { intros x Hx. destruct (last X) as [xl|] eqn:Hl.
    - pose proof (sorted_le_last X x xl HX Hl Hx). specialize (Hlast xl eq_refl). lia.
    - apply last_None in Hl as ->. by apply elem_of_nil in Hx. }
  assert (∀ y, y ∈ Y → key ≤ y) as HYk.
  { intros y Hy. destruct (head Y) as [yh|] eqn:Hh.
    - pose proof (sorted_le_head Y y yh HY Hh Hy). specialize (Hhead yh eq_refl). lia.
    - apply head_None in Hh as ->. by apply elem_of_nil in Hy. }
  apply StronglySorted_app. split_and!; [|done|].
  - intros x1 x2 Hx1 [->|Hx2]%elem_of_cons; [by apply HXk|by apply HXY].
  - apply StronglySorted_cons. split; [|done]. by apply Forall_forall.
Qed.

Lemma sorted_le_NoDup_lt l :
  StronglySorted Z.le l → NoDup l → StronglySorted Z.lt l.
Proof.
  induction 1 as [|x l HS IH Hall]; intros Hnd; [constructor|].
  apply NoDup_cons in Hnd as [Hx Hnd]. constructor; [by apply IH|].
  rewrite Forall_forall in Hall |- *. intros y Hy.
  specialize (Hall y Hy). assert (x ≠ y) by (by intros ->). lia.
Qed.

Lemma sorted_lt_le l : StronglySorted Z.lt l → StronglySorted Z.le l.
Proof.
  induction 1 as [|x l HS IH Hall]; constructor; [done|].
  eapply Forall_impl; [exact Hall|]. intros y ?. simpl in *. lia.
Qed.

Lemma sorted_lt_NoDup l : StronglySorted Z.lt l → NoDup l.
Proof.
  induction 1 as [|x l HS IH Hall]; constructor; [|done].
  rewrite Forall_forall in Hall. intros Hx%Hall. lia.
Qed.

(** In a sorted list, an element that lies strictly between the end of
    [A] and the start of [C] can only be in the middle part. *)
Lemma sorted_le_middle A B C key :
  StronglySorted Z.le (A ++ B ++ C) →
  (∀ x, last A = Some x → x < key) →
  (∀ y, head C = Some y → key < y) →
  key ∈ A ++ B ++ C → key ∈ B.
Proof.
  intros HS Hlast Hhead.
  pose proof HS as (_ & HA & (_ & _ & HC)%StronglySorted_app)%StronglySorted_app.
  intros [Hk|[Hk|Hk]%elem_of_app]%elem_of_app; [|done|].
  - destruct (last A) as [xl|] eqn:Hl.
    + pose proof (sorted_le_last A key xl HA Hl Hk).
      specialize (Hlast xl eq_refl). lia.
    + apply last_None in Hl as ->. by apply elem_of_nil in Hk.
  - destruct (head C) as [yh|] eqn:Hh.
    + pose proof (sorted_le_head C key yh HC Hh Hk).
      specialize (Hhead yh eq_refl). lia.
    + apply head_None in Hh as ->. by apply elem_of_nil in Hk.
Qed.

(** ** What one [insert] does to the tree *)

Lemma inorder_z_grow t r : bk r → inorder_z (grow t r) = inorder_z r.
Proof.
  intros Hbk. unfold grow.
  destruct (Z.eqb_spec (n_keys r) (2 * t - 1)) as [Hfull|]; [|done].
  destruct (bk_inv _ Hbk) as (tr & lr & zr & cr & Hr & _).
  assert (Z.of_nat (length zr) = 2 * t - 1) as Hlen by (by subst r).
  destruct (full_median t zr Hlen) as [m Hm].
  assert (keys r !! Z.to_nat (t - 1) = Some (Some m)) as Hkm.
  { subst r. simpl. by rewrite list_lookup_fmap, Hm. }
  rewrite Hkm, (inorder_z_split t r m) by done.
  rewrite (inorder_z_unfold (mkNode _ _ _ _ _)). simpl.
  by rewrite app_nil_r.
Qed.

Lemma insert_spec tr key :
  bk (root tr) →
  ∃ tr' X Y,
    insert tr key = Ok tr' ∧ order tr' = order tr ∧ bk (root tr') ∧
    inorder_z (root tr) = X ++ Y ∧
    inorder_z (root tr') = X ++ key :: Y ∧
    (StronglySorted Z.le (inorder_z (root tr)) →
     StronglySorted Z.le (inorder_z (root tr'))) ∧
    (2 ≤ order tr → ∀ h, shape 0 (order tr) h (root tr) →
     shape 0 (order tr)
       (if n_keys (root tr) =? 2 * order tr - 1 then S h else h) (root tr')).
Proof.
  intros Hbk. destruct (insert_run tr key Hbk) as (r' & Hins & Hrel).
  pose proof (bk_grow (order tr) _ Hbk) as Hbkg.
  destruct (ins_rel_inorder _ _ _ _ Hrel Hbkg) as (X & Y & HX & HX' & Hl & Hh).
  rewrite inorder_z_grow in HX by done.
  exists (mkBTree (order tr) r'), X, Y. simpl.
  split_and!; [done|done|by eapply bk_ins_rel|done|done| |].
  - rewrite HX, HX'. intros HS. by apply sorted_le_insert.
  - intros Ht h Hs. destruct (shape_grow _ _ _ Ht Hs) as [Hsg Hroom].
    eapply shape_ins_rel; [lia|done|done|done].
Qed.

Lemma bk_init t : bk (BTreeNode_init t true).
Proof. by apply (bk_node_of t true [] []). Qed.

Lemma shape_init t : 1 ≤ t → shape 0 t 0 (BTreeNode_init t true).
Proof.
  intros Ht. apply (shape_node_of 0 t 0 t true [] []). simpl.
  split_and!; [done|lia|lia|done].
Qed.

Lemma insert_all_spec l : ∀ tr,
  bk (root tr) →
  ∃ tr',
    insert_all tr l = Ok tr' ∧ order tr' = order tr ∧ bk (root tr') ∧
    inorder_z (root tr') ≡ₚ inorder_z (root tr) ++ l ∧
    (StronglySorted Z.le (inorder_z (root tr)) →
     StronglySorted Z.le (inorder_z (root tr'))) ∧
    (2 ≤ order tr → (∃ h, shape 0 (order tr) h (root tr)) →
     ∃ h', shape 0 (order tr) h' (root tr')).
Proof.
  induction l as [|k l IH]; intros tr Hbk; simpl.
  - exists tr. rewrite app_nil_r. by split_and!.
  - destruct (insert_spec tr k Hbk)
      as (tr1 & X & Y & -> & Ho & Hbk1 & HX & HX' & Hs1 & Hsh1).
    destruct (IH tr1 Hbk1) as (tr' & Hrun & Ho' & Hbk' & Hp & Hs' & Hsh').
    rewrite bind_Ok. exists tr'. rewrite Ho in *.
    split_and!; [done|done|done| |by auto|].
    + rewrite Hp, HX, HX'. rewrite <- Permutation_middle.
      rewrite (Permutation_middle (X ++ Y) l k). done.
    + intros Ht [h Hsh]. apply Hsh'; [done|]. eauto.
Qed.

Lemma reachable_bk t tr : reachable t tr → bk (root tr) ∧ order tr = t.
Proof.
  intros [l Hl].
  destruct (insert_all_spec l (BTree_init t) (bk_init t))
    as (tr' & Hrun & Ho & Hbk & _).
  rewrite Hl in Hrun. simplify_eq. by split.
Qed.

Lemma reachable_sorted t tr :
  reachable t tr → StronglySorted Z.le (inorder_z (root tr)).
Proof.
  intros [l Hl].
  destruct (insert_all_spec l (BTree_init t) (bk_init t))
    as (tr' & Hrun & _ & _ & _ & Hs & _).
  rewrite Hl in Hrun. simplify_eq. apply Hs. constructor.
Qed.

Lemma reachable_shape t tr :
  2 ≤ t → reachable t tr → ∃ h, shape 0 t h (root tr).
Proof.
  intros Ht [l Hl].
  destruct (insert_all_spec l (BTree_init t) (bk_init t))
    as (tr' & Hrun & _ & _ & _ & _ & Hsh).
  rewrite Hl in Hrun. simplify_eq. apply Hsh; [done|]. exists 0%nat. apply shape_init. simpl. lia.
Qed.

(** ** [_search_recursive] *)

Lemma search_recursive_eq node key :
  _search_recursive node key =
    i ← search_scan (keys node) (n_keys node) key 0 (Z.to_nat (n_keys node));
    hit ← (if i <? n_keys node
           then v ← Py.getitem (keys node) i; Ok (Py.eq_int key v)
           else Ok false);
    if hit : bool then Ok (Found node i)
    else if is_leaf node then Ok NotFound
    else c ← Py.getitem (children node) i; _search_recursive c key.
Proof.
  destruct node as [tn leaf ks cs n]. cbn [_search_recursive keys n_keys is_leaf children].
  destruct (search_scan ks n key 0 (Z.to_nat n)) as [i| |]; [|done..].
  rewrite !bind_Ok.
  destruct (if i <? n then _ else _) as [[]| |]; [done| |done..].
  rewrite !bind_Ok. destruct leaf; [done|].
  unfold Py.getitem. destruct (Py.norm_index (length cs) i) as [j|]; [|done].
  clear. revert j. induction cs as [|c cs IH]; intros [|j]; simpl; done.
Qed.

Lemma first_ge_le key zs : (first_ge key zs ≤ length zs)%nat.
Proof.
  induction zs as [|x zs IH]; simpl; [lia|]. destruct (key >? x); lia.
Qed.

Lemma first_ge_take key zs :
  Forall (λ x, x < key) (take (first_ge key zs) zs).
Proof.
  induction zs as [|x zs IH]; simpl; [constructor|].
  destruct (Z.gtb_spec key x); simpl; constructor; [lia|done].
Qed.

Lemma first_ge_lookup key zs x :
  zs !! first_ge key zs = Some x → key ≤ x.
Proof.
  induction zs as [|y zs IH]; simpl; [done|].
  destruct (Z.gtb_spec key y); simpl; [done|]. intros [= <-]. lia.
Qed.

Lemma search_eq tn (leaf : bool) zs cs key :
  _search_recursive (node_of tn leaf zs cs) key =
    if bool_decide (zs !! first_ge key zs = Some key)
    then Ok (Found (node_of tn leaf zs cs) (Z.of_nat (first_ge key zs)))
    else if leaf then Ok NotFound
    else match cs !! first_ge key zs with
         | Some c => _search_recursive c key
         | None => Raise IndexError
         end.
Proof.
  rewrite search_recursive_eq. cbn [keys n_keys is_leaf children node_of].
  rewrite Nat2Z.id.
  pose proof (search_scan_spec key zs [] (length zs) (Nat.le_refl _)) as Hscan.
  simpl in Hscan. change (Z.of_nat 0) with 0 in Hscan.
  rewrite Hscan, bind_Ok. clear Hscan.
  pose proof (first_ge_le key zs) as Hle.
  set (j := first_ge key zs) in *.
  assert ((if Z.of_nat j <? Z.of_nat (length zs)
           then v ← Py.getitem (Some <$> zs) (Z.of_nat j); Ok (Py.eq_int key v)
           else Ok false)
          = Ok (bool_decide (zs !! j = Some key))) as ->.
  { destruct (Z.ltb_spec (Z.of_nat j) (Z.of_nat (length zs))).
    - destruct (lookup_lt_is_Some_2 zs j) as [x Hx]; [lia|].
      rewrite (getitem_nat _ _ (Some x)) by (by rewrite list_lookup_fmap, Hx).
      rewrite bind_Ok, Hx. simpl. f_equal.
      destruct (Z.eqb_spec key x) as [->|Hne].
      + by rewrite bool_decide_eq_true_2.
      + rewrite bool_decide_eq_false_2; [done|]. by intros [= ->].
    - rewrite lookup_ge_None_2 by lia. by rewrite bool_decide_eq_false_2. }
  rewrite bind_Ok. destruct (bool_decide _); [done|]. destruct leaf; [done|].
  destruct (cs !! j) as [c|] eqn:Hc.
  - by rewrite (getitem_nat _ _ _ Hc).
  - by rewrite getitem_nat_None.
Qed.

(** Induction over a node with the hypothesis for all its children. *)
Lemma BTreeNode_Forall_ind (P : BTreeNode → Prop) :
  (∀ node, Forall P (children node) → P node) → ∀ node, P node.
Proof.
  intros HP. fix IH 1. intros [tn leaf ks cs n]. apply HP. simpl.
  induction cs as [|c cs IHcs]; constructor; [apply IH|apply IHcs].
Qed.

Lemma elem_of_weave {A} (x : A) css ks :
  x ∈ weave css ks ↔ x ∈ ks ∨ ∃ c, c ∈ css ∧ x ∈ c.
Proof.
  revert ks. induction css as [|c css IH]; intros ks; simpl.
  - split; [by left|]. intros [?|(c & []%elem_of_nil & _)]; done.
  - destruct ks as [|k ks]; rewrite elem_of_app, ?elem_of_cons, IH;
      setoid_rewrite elem_of_cons; naive_solver.
Qed.

Lemma weave_pre_last zs (cs : list BTreeNode) (p : nat) x :
  zs !! p = Some x → (p < length cs)%nat →
  last (weave (inorder_z <$> take (S p) cs) (take (S p) zs)) = Some x.
Proof.
  intros Hx Hlt. destruct (lookup_lt_is_Some_2 cs p) as [c0 Hc0]; [lia|].
  rewrite (take_S_r _ _ x), (take_S_r _ _ c0), fmap_app by done.
  simpl. rewrite weave_snoc
    by (pose proof (lookup_lt_Some _ _ _ Hx);
        rewrite length_fmap, !length_take; lia).
  by rewrite !(assoc_L (++)), last_snoc.
Qed.

Lemma weave_tail_head zs (cs : list BTreeNode) (p : nat) :
  length cs = S (length zs) →
  head (weave_tail (inorder_z <$> drop (S p) cs) (drop p zs)) = zs !! p.
Proof.
  intros Hlen. unfold weave_tail.
  destruct (drop p zs) as [|k ks] eqn:Hd.
  - apply (f_equal length) in Hd. rewrite length_drop in Hd. simpl in Hd.
    rewrite drop_ge, lookup_ge_None_2 by lia. done.
  - simpl. by rewrite <- (Nat.add_0_r p), <- lookup_drop, Hd.
Qed.

(** [search] finds exactly the keys of the traversal. *)
Lemma search_correct key : ∀ node,
  bk node → StronglySorted Z.le (inorder_z node) →
  (key ∈ inorder_z node →
   ∃ x i, _search_recursive node key = Ok (Found x (Z.of_nat i)) ∧
          x ∈ subnodes node ∧ keys x !! i = Some (Some key)) ∧
  (key ∉ inorder_z node → _search_recursive node key = Ok NotFound).
Proof.
  induction node as [node IH] using BTreeNode_Forall_ind. intros Hbk HS.
  destruct (bk_inv _ Hbk) as (tn & leaf & zs & cs & -> & Hlen & Hcs).
  simpl in IH. rewrite search_eq. set (j := first_ge key zs).
  assert (∀ x, x ∈ zs → x ∈ inorder_z (node_of tn leaf zs cs)) as Hzs.
  { intros x Hx. rewrite inorder_z_node_of, elem_of_weave. by left. }
  destruct (bool_decide_reflect (zs !! j = Some key)) as [Hj|Hj].
  { split.
    - intros _. exists (node_of tn leaf zs cs), j.
      split_and!; [done|apply subnodes_self|].
      cbn [keys node_of]. by rewrite (list_lookup_fmap Some zs j), Hj.
    - intros []. by eapply Hzs, list_elem_of_lookup_2. }
  pose proof (first_ge_le key zs) as Hle. fold j in Hle.
  assert (∀ x, zs !! j = Some x → key < x) as Hgt.
  { intros x Hx. pose proof (first_ge_lookup _ _ _ Hx).
    assert (x ≠ key) by (intros ->; by apply Hj). lia. }
  assert (∀ x, last (take j zs) = Some x → x < key) as Hlt.
  { intros x Hx%last_Some_elem_of.
    pose proof (first_ge_take key zs) as Hall. rewrite Forall_forall in Hall.
    by apply Hall. }
  destruct leaf.
  - subst cs. rewrite inorder_z_node_of in HS |- *. simpl in *.
    split; [|done]. intros Hk. exfalso.
    rewrite <- (take_drop j zs), <- (app_nil_l (drop j zs)) in Hk, HS.
    apply sorted_le_middle in Hk; [by apply elem_of_nil in Hk|done|done|].
    intros y. rewrite head_lookup, lookup_drop, Nat.add_0_r. apply Hgt.
  - destruct (lookup_lt_is_Some_2 cs j) as [c Hc]; [lia|]. rewrite Hc.
    rewrite (inorder_z_at _ _ _ _ j c Hc Hle) in HS |- *.
    destruct (Forall_lookup_1 _ _ _ _ IH Hc) as [IHin IHout].
    { by eapply Forall_lookup_1. }
    { by apply StronglySorted_app_1_r, StronglySorted_app_1_l in HS. }
    assert (key ∈ weave (inorder_z <$> take j cs) (take j zs) ++
              inorder_z c ++
              weave_tail (inorder_z <$> drop (S j) cs) (drop j zs)
            → key ∈ inorder_z c) as Hmid.
    { apply sorted_le_middle; [done| |].
      - destruct j as [|j']; [done|].
        destruct (lookup_lt_is_Some_2 zs j') as [x' Hx']; [lia|].
        rewrite (weave_pre_last _ _ _ x') by (done || lia).
        intros x [= <-]. apply Hlt.
        by rewrite (take_S_r _ _ x'), last_snoc.
      - intros y. rewrite weave_tail_head by done. apply Hgt. }
    split.
    + intros Hk%Hmid. destruct (IHin Hk) as (x & i & Hrun & Hx & Hi).
      exists x, i. split_and!; [done| |done].
      eapply subnodes_child; [|done]. simpl. by eapply list_elem_of_lookup_2.
    + intros Hk. apply IHout. intros Hk'. apply Hk.
      rewrite !elem_of_app. auto.
Qed.

(** ** The traversal of the key slots *)

Lemma weave_fmap {A B} (f : A → B) (css : list (list A)) (ks : list A) :
  f <$> weave css ks = weave ((λ c : list A, f <$> c) <$> css) (f <$> ks).
Proof.
  revert ks. induction css as [|c css IH]; intros ks; [done|].
  destruct ks as [|k ks]; simpl; rewrite fmap_app, ?fmap_cons, IH; done.
Qed.

Lemma inorder_unfold node :
  inorder node = weave (inorder <$> children node) (keys node).
Proof. by destruct node. Qed.

Lemma inorder_bk : ∀ node, bk node → inorder node = Some <$> inorder_z node.
Proof.
  induction node as [node IH] using BTreeNode_Forall_ind. intros Hbk.
  destruct (bk_inv _ Hbk) as (tn & leaf & zs & cs & -> & Hlen & Hcs).
  rewrite inorder_unfold, inorder_z_node_of, weave_fmap. simpl in *.
  f_equal. rewrite <- list_fmap_compose. apply Forall_fmap_ext_1.
  rewrite Forall_forall in IH, Hcs |- *. intros c Hc. simpl. auto.
Qed.

Lemma elem_of_inorder_bk node k :
  bk node → Some k ∈ inorder node ↔ k ∈ inorder_z node.
Proof.
  intros Hbk. rewrite inorder_bk by done. split.
  - by intros (k' & [= <-] & ?)%list_elem_of_fmap.
  - apply list_elem_of_fmap_2.
Qed.

(** ** Every node of a tree with the shape invariant *)

Lemma shape_subnodes lo t h node x :
  lo ≤ t - 1 → shape lo t h node → x ∈ subnodes node →
  lo ≤ n_keys x ≤ 2 * t - 1.
Proof.
  intros Hlo. revert lo node Hlo. induction h as [|h IH]; intros lo node Hlo;
    rewrite shape_unfold, elem_of_subnodes; intros (Hok & _ & Hn & Hh).
  - destruct Hok as [_ Hc]. rewrite Hh in Hc.
    apply nil_length_inv in Hc. rewrite Hc.
    intros [->|(c & []%elem_of_nil & _)]. done.
  - destruct Hh as [_ Hcs]. rewrite Forall_forall in Hcs.
    intros [->|(c & Hc & Hx)]; [done|].
    specialize (IH (t - 1) c (Z.le_refl _) (Hcs c Hc) Hx). lia.
Qed.

Lemma shape_nonroot t h node x :
  shape 0 t h node → x ∈ nonroot_nodes node →
  t - 1 ≤ n_keys x ≤ 2 * t - 1.
Proof.
  unfold nonroot_nodes. rewrite list_elem_of_bind. intros Hs (c & Hx & Hc).
  destruct h as [|h]; apply shape_unfold in Hs as (Hok & _ & _ & Hh).
  - destruct Hok as [_ Hl]. rewrite Hh in Hl.
    apply nil_length_inv in Hl. rewrite Hl in Hc. by apply elem_of_nil in Hc.
  - destruct Hh as [_ Hcs]. rewrite Forall_forall in Hcs.
    eapply shape_subnodes; [|by apply Hcs|done]. lia.
Qed.

Lemma shape_leaf_depths lo t h node d :
  shape lo t h node → d ∈ leaf_depths node → d = h.
Proof.
  revert lo node d. induction h as [|h IH]; intros lo node d;
    rewrite shape_unfold; intros (_ & _ & _ & Hh);
    destruct node as [tn leaf ks cs n]; simpl in *.
  - subst leaf. by intros ->%list_elem_of_singleton.
  - destruct Hh as [-> Hcs]. rewrite Forall_forall in Hcs.
    intros (d' & -> & (c & Hd' & Hc)%list_elem_of_bind)%list_elem_of_fmap.
    f_equal. eapply IH; eauto.
Qed.

Lemma shape_leaf_depths_nonempty lo t h node :
  shape lo t h node → leaf_depths node ≠ [].
Proof.
  revert lo node. induction h as [|h IH]; intros lo node;
    rewrite shape_unfold; intros (Hok & _ & Hn & Hh);
    destruct node as [tn leaf ks cs n]; unfold node_ok in *; simpl in *.
  - by subst leaf.
  - destruct Hh as [-> Hcs]. destruct Hok as [-> Hlen].
    destruct cs as [|c cs]; [simpl in Hlen; lia|].
    apply Forall_cons_1 in Hcs as [Hc _]. apply IH in Hc.
    simpl. destruct (leaf_depths c); done.
Qed.

Lemma shape_depth lo t h node : shape lo t h node → depth node = S h.
Proof.
  revert lo node. induction h as [|h IH]; intros lo node;
    rewrite shape_unfold, depth_unfold; intros (Hok & _ & Hn & Hh);
    unfold node_ok in *.
  - destruct Hok as [_ Hc]. rewrite Hh in Hc.
    apply nil_length_inv in Hc. by rewrite Hc.
  - destruct Hh as [Hl Hcs]. destruct Hok as [Hk Hlen]. rewrite Hl in Hlen.
    f_equal. destruct (children node) as [|c cs]; [simpl in Hlen; lia|].
    assert (Forall (λ d, d = S h) (depth <$> c :: cs)) as Hall.
    { apply Forall_fmap. eapply Forall_impl; [exact Hcs|]. intros ?. apply IH. }
    clear -Hall. simpl in *. apply Forall_cons_1 in Hall as [-> Hall].
    induction Hall as [|d ds -> _ IHds]; simpl; lia.
Qed.

(** ** Subtrees *)

Lemma subnodes_trans : ∀ node x y,
  x ∈ subnodes node → y ∈ subnodes x → y ∈ subnodes node.
Proof.
  induction node as [node IH] using BTreeNode_Forall_ind. intros x y Hx Hy.
  apply elem_of_subnodes in Hx as [->|(c & Hc & Hx)]; [done|].
  rewrite Forall_forall in IH. eapply subnodes_child; [done|]. by eapply IH.
Qed.

Lemma bk_subnodes node x : bk node → x ∈ subnodes node → bk x.
Proof.
  intros [Hb Hi] Hx. split; intros y Hy; [apply Hb|apply Hi];
    by eapply subnodes_trans.
Qed.

Lemma sorted_subnodes (R : relation Z) : ∀ node x,
  bk node → StronglySorted R (inorder_z node) → x ∈ subnodes node →
  StronglySorted R (inorder_z x).
Proof.
  induction node as [node IH] using BTreeNode_Forall_ind. intros x Hbk HS Hx.
  apply elem_of_subnodes in Hx as [->|(c & Hc & Hx)]; [done|].
  destruct (bk_inv _ Hbk) as (tn & leaf & zs & cs & -> & Hlen & Hcs).
  simpl in Hc, IH. destruct leaf; [subst cs; by apply elem_of_nil in Hc|].
  apply list_elem_of_lookup in Hc as [p Hp].
  pose proof (lookup_lt_Some _ _ _ Hp) as Hlt.
  rewrite (inorder_z_at _ _ _ _ p c Hp) in HS by lia.
  apply StronglySorted_app_1_r, StronglySorted_app_1_l in HS.
  eapply (Forall_lookup_1 _ _ _ _ IH Hp); [|done|done].
  by eapply Forall_lookup_1.
Qed.

Lemma subtree_order_sorted node :
  bk node → StronglySorted Z.lt (inorder_z node) → subtree_order node.
Proof.
  intros Hbk HS x Hx Hleaf i c k Hc Hk.
  pose proof (bk_subnodes _ _ Hbk Hx) as Hbkx.
  pose proof (sorted_subnodes _ _ _ Hbk HS Hx) as HSx.
  destruct (bk_inv _ Hbkx) as (tn & leaf & zs & cs & -> & Hlen & Hcs).
  simpl in Hleaf, Hc. subst leaf.
  pose proof (lookup_lt_Some _ _ _ Hc) as Hlt.
  rewrite (inorder_z_at _ _ _ _ i c Hc) in HSx by lia.
  apply elem_of_inorder_bk in Hk; [|by eapply Forall_lookup_1].
  split.
  - intros kp Hi Hkp. destruct i as [|i]; [lia|].
    replace (S i - 1)%nat with i in Hkp by lia.
    cbn [keys node_of] in Hkp. rewrite list_lookup_fmap in Hkp.
    destruct (zs !! i) as [kp'|] eqn:Hz; simplify_eq/=.
    eapply (StronglySorted_app_1_elem_of _ _ _ _ _ HSx).
    + eapply last_Some_elem_of, weave_pre_last; [done|lia].
    + apply elem_of_app. by left.
  - intros kn Hi Hkn. cbn [keys node_of] in Hkn.
    rewrite list_lookup_fmap in Hkn.
    destruct (zs !! i) as [kn'|] eqn:Hz; simplify_eq/=.
    apply StronglySorted_app_1_r in HSx.
    eapply (StronglySorted_app_1_elem_of _ _ _ _ _ HSx); [done|].
    eapply head_Some_elem_of. by rewrite weave_tail_head.
Qed.

(** ** [_search_recursive] computes [spec_search] *)

Lemma find_first_first_ge key zs :
  find_first (key_ge key) (Some <$> zs) = first_ge key zs.
Proof.
  induction zs as [|x zs IH]; [done|].
  rewrite fmap_cons. cbn [find_first first_ge key_ge]. rewrite IH.
  destruct (Z.leb_spec key x), (Z.gtb_spec key x); (done || lia).
Qed.

Lemma spec_search_node_of tn (leaf : bool) zs cs key :
  spec_search (node_of tn leaf zs cs) key =
    if bool_decide (zs !! first_ge key zs = Some key)
    then Found (node_of tn leaf zs cs) (Z.of_nat (first_ge key zs))
    else if leaf then NotFound
    else default NotFound (((λ c, spec_search c key) <$> cs) !! first_ge key zs).
Proof.
  unfold node_of. cbn [spec_search]. rewrite find_first_first_ge.
  rewrite list_lookup_fmap.
  erewrite (bool_decide_ext (_ = Some (Some key))); [done|].
  destruct (zs !! first_ge key zs); simpl; naive_solver.
Qed.

Lemma search_refines_spec key : ∀ node,
  bk node → _search_recursive node key = Ok (spec_search node key).
Proof.
  induction node as [node IH] using BTreeNode_Forall_ind. intros Hbk.
  destruct (bk_inv _ Hbk) as (tn & leaf & zs & cs & -> & Hlen & Hcs).
  simpl in IH. rewrite search_eq, spec_search_node_of.
  destruct (bool_decide _); [done|]. destruct leaf; [done|].
  pose proof (first_ge_le key zs) as Hle.
  destruct (lookup_lt_is_Some_2 cs (first_ge key zs)) as [c Hc]; [lia|].
  rewrite list_lookup_fmap, Hc. simpl.
  eapply (Forall_lookup_1 _ _ _ _ IH Hc). by eapply Forall_lookup_1.
Qed.

(** ** The bookkeeping invariant alone, on arbitrary key slots *)

Lemma bookkeeping_unfold node :
  bookkeeping node ↔ node_ok node ∧ Forall bookkeeping (children node).
Proof. apply (every_unfold node_ok). Qed.

Lemma setitem_length {A} (l l' : list A) i x :
  Py.setitem l i x = Ok l' → length l' = length l.
Proof.
  unfold Py.setitem. destruct (Py.norm_index _ _); [|done].
  intros [= <-]. apply length_insert.
Qed.

Lemma descend_scan_range ks key : ∀ steps i j,
  descend_scan ks key i steps = Ok j → -1 ≤ i → -1 ≤ j ≤ i.
Proof.
  induction steps as [|s IH]; intros i j; rewrite descend_scan_eq;
    (destruct (Z.leb_spec 0 i); [|intros [= <-]; lia]);
    (destruct (Py.getitem ks i) as [v| |]; [|done..]); rewrite bind_Ok;
    (destruct (Py.as_int v) as [x| |]; [|done..]); rewrite bind_Ok;
    (destruct (key <? x); [|intros [= <-]; lia]); [done|].
  intros Hj%IH; lia.
Qed.

Lemma leaf_shift_range key : ∀ steps ks i ks' j,
  leaf_shift ks key i steps = Ok (ks', j) → -1 ≤ i →
  length ks' = length ks ∧ -1 ≤ j ≤ i.
Proof.
  induction steps as [|s IH]; intros ks i ks' j; rewrite leaf_shift_eq;
    (destruct (Z.leb_spec 0 i); [|intros [= <- <-]; lia]);
    (destruct (Py.getitem ks i) as [v| |]; [|done..]); rewrite bind_Ok;
    (destruct (Py.as_int v) as [x| |]; [|done..]); rewrite bind_Ok;
    (destruct (key <? x); [|intros [= <- <-]; lia]); [done|].
  destruct (Py.setitem ks (i + 1) v) as [ks1| |] eqn:Hset; [|done..].
  rewrite bind_Ok. apply setitem_length in Hset.
  intros [Hl Hj]%IH; lia.
Qed.

Lemma bookkeeping_split_left t c :
  bookkeeping c → n_keys c = 2 * t - 1 → bookkeeping (split_left t c).
Proof.
  intros [[Hn Hc] Hcs]%bookkeeping_unfold Hfull.
  apply bookkeeping_unfold. unfold node_ok. simpl.
  rewrite length_take. destruct (is_leaf c).
  - split_and!; [lia|done|done].
  - split_and!; [lia|rewrite length_take; lia|by apply Forall_take].
Qed.

Lemma bookkeeping_split_right t c :
  bookkeeping c → n_keys c = 2 * t - 1 → bookkeeping (split_right t c).
Proof.
  intros [[Hn Hc] Hcs]%bookkeeping_unfold Hfull.
  apply bookkeeping_unfold. unfold node_ok. simpl.
  rewrite length_drop. destruct (is_leaf c).
  - split_and!; [lia|done|constructor].
  - split_and!; [lia|rewrite length_drop; lia|by apply Forall_drop].
Qed.

Lemma bookkeeping_insert_non_full t key : ∀ fuel node node',
  bookkeeping node → _insert_non_full fuel t node key = Ok node' →
  bookkeeping node'.
Proof.
  induction fuel as [|fuel IH]; intros node node' Hb; [done|].
  assert (∀ node1 (q : nat) node2,
            node_ok node1 → is_leaf node1 = false →
            Forall bookkeeping (children node1) →
            (child ← Py.getitem (children node1) (Z.of_nat q);
             child' ← _insert_non_full fuel t child key;
             cs ← Py.setitem (children node1) (Z.of_nat q) child';
             Ok (set_children node1 cs)) = Ok node2 →
            bookkeeping node2) as Hstep.
  { intros node1 q node2 [Hn Hc] Hl Hcs. rewrite Hl in Hc.
    destruct (children node1 !! q) as [c|] eqn:Hq;
      [|by rewrite getitem_nat_None].
    rewrite (getitem_nat _ _ _ Hq), bind_Ok.
    destruct (_insert_non_full fuel t c key) as [c'| |] eqn:Hrec; [|done..].
    rewrite bind_Ok, setitem_nat by (by eapply lookup_lt_Some).
    rewrite bind_Ok. intros [= <-].
    apply bookkeeping_unfold. unfold node_ok. simpl.
    rewrite Hl, length_insert. split_and!; [done..|].
    apply Forall_insert; [done|]. eapply IH; [|done].
    by eapply Forall_lookup_1. }
  apply bookkeeping_unfold in Hb as [[Hn Hc] Hcs].
  rewrite insert_non_full_eq. cbn zeta.
  destruct (is_leaf node) eqn:Hleaf.
  - destruct (leaf_shift _ _ _ _) as [[ks i]| |] eqn:Hls; [|done..].
    apply leaf_shift_range in Hls as [Hlen Hi]; [|lia].
    cbn [mbind result_bind].
    destruct (Py.setitem ks (i + 1) (Some key)) as [ks'| |] eqn:Hset;
      [|done..].
    apply setitem_length in Hset. rewrite bind_Ok. intros [= <-].
    apply bookkeeping_unfold. unfold node_ok. simpl.
    rewrite Hleaf, length_app in *. simpl in *. split_and!; [lia|done|done].
  - destruct (descend_scan _ _ _ _) as [j| |] eqn:Hds; [|done..].
    apply descend_scan_range in Hds; [|lia]. rewrite bind_Ok.
    replace (j + 1) with (Z.of_nat (Z.to_nat (j + 1))) by lia.
    set (p := Z.to_nat (j + 1)).
    destruct (children node !! p) as [c|] eqn:Hp;
      [|by rewrite getitem_nat_None].
    rewrite (getitem_nat _ _ _ Hp), bind_Ok.
    assert (bookkeeping c) as Hbc by (by eapply Forall_lookup_1).
    destruct (Z.eqb_spec (n_keys c) (2 * t - 1)) as [Hfull|Hroom].
    + pose proof Hbc as [[Hnc _] _]%bookkeeping_unfold.
      destruct (lookup_lt_is_Some_2 (keys c) (Z.to_nat (t - 1)))
        as [m Hm]; [lia|].
      rewrite (split_child_run t node p c m) by (done || lia).
      rewrite bind_Ok. cbn [keys].
      destruct (Py.getitem _ _) as [v| |]; [|done..]. rewrite bind_Ok.
      destruct (Py.as_int v) as [x| |]; [|done..]. rewrite !bind_Ok.
      cbn [mbind result_bind].
      replace (Z.of_nat p + 1) with (Z.of_nat (S p)) by lia.
      pose proof (lookup_lt_Some _ _ _ Hp) as Hlt.
      destruct (key >? x); apply Hstep; try done; unfold node_ok; simpl;
        rewrite ?Hleaf, ?length_app; simpl;
        rewrite ?length_app, ?length_take, ?length_drop; simpl;
        try (split; lia);
        (apply Forall_app; split; [by apply Forall_take|];
         apply Forall_cons_2; [by apply bookkeeping_split_left|];
         apply Forall_cons_2;
           [by apply bookkeeping_split_right|by apply Forall_drop]).
    + rewrite bind_Ok. apply Hstep; [|done|done]. split; [done|].
      by rewrite Hleaf.
Qed.

Lemma bookkeeping_grow t r : bookkeeping r → bookkeeping (grow t r).
Proof.
  intros Hr. unfold grow.
  destruct (Z.eqb_spec (n_keys r) (2 * t - 1)) as [Hfull|]; [|done].
  destruct (keys r !! _) as [m|] eqn:Hm; [|done].
  apply bookkeeping_unfold. unfold node_ok. simpl. split_and!; [done..|].
  apply Forall_cons_2; [by apply bookkeeping_split_left|].
  apply Forall_cons_2; [by apply bookkeeping_split_right|constructor].
Qed.

Lemma bookkeeping_insert tr key tr' :
  bookkeeping (root tr) → insert tr key = Ok tr' → bookkeeping (root tr').
Proof.
  intros Hb. pose proof Hb as [[Hn _] _]%bookkeeping_unfold.
  pose proof (bookkeeping_grow (order tr) _ Hb) as Hg.
  unfold insert, grow in *.
  destruct (Z.eqb_spec (n_keys (root tr)) (2 * order tr - 1)) as [Hfull|Hroom].
  - destruct (lookup_lt_is_Some_2 (keys (root tr)) (Z.to_nat (order tr - 1)))
      as [m Hm]; [lia|]. rewrite Hm in Hg.
    change (Py.insert_at (children (BTreeNode_init (order tr) false)) 0
              (root tr)) with [root tr].
    rewrite (split_child_run (order tr) _ 0 (root tr) m)
      by (done || simpl; lia). rewrite bind_Ok.
    cbn [node_t is_leaf keys children n_keys set_children
      BTreeNode_init take drop app].
    change (0 + 1) with 1.
    destruct (_insert_non_full _ _ _ _) as [s| |] eqn:Hrun; [|done..].
    rewrite bind_Ok. intros [= <-]. simpl.
    by eapply bookkeeping_insert_non_full.
  - destruct (_insert_non_full _ _ _ _) as [s| |] eqn:Hrun; [|done..].
    rewrite bind_Ok. intros [= <-]. simpl.
    by eapply bookkeeping_insert_non_full.
Qed.

(** * The claims *)

Lemma insert_all_distinct t l :
  NoDup l →
  ∃ tr, insert_all (BTree_init t) l = Ok tr ∧ order tr = t ∧
        bk (root tr) ∧
        inorder_z (root tr) ≡ₚ l ∧
        StronglySorted Z.lt (inorder_z (root tr)).
Proof.
  intros Hnd.
  destruct (insert_all_spec l (BTree_init t) (bk_init t))
    as (tr & Hrun & Ho & Hbk & Hp & Hs & _).
  exists tr. simpl in Hp. split_and!; [done..|].
  apply sorted_le_NoDup_lt; [apply Hs; constructor|by rewrite Hp].
Qed.

Lemma finds_exactly_sorted tr K :
  bk (root tr) → StronglySorted Z.le (inorder_z (root tr)) →
  inorder_z (root tr) ≡ₚ K → finds_exactly tr K.
Proof.
  intros Hbk HS Hp. split; intros k Hk; rewrite <- Hp in Hk;
    destruct (search_correct k (root tr) Hbk HS) as [Hin Hout].
  - destruct (Hin Hk) as (x & i & Hrun & Hx & Hi).
    exists x, (Z.of_nat i). split_and!; [done..|]. by apply getitem_nat.
  - by apply Hout.
Qed.

(** C1.  For every order [t >= 2], every set [K] of distinct keys and
    every permutation [l] of [K]: inserting [l] key by key into a fresh
    tree succeeds; afterwards [search k] returns a pair [(node, i)] with
    [node.keys[i] == k] for every [k] in [K] and the sentinel for every
    other key, and the in-order traversal is [K] in strictly increasing
    order. *)
Theorem insert_then_search_and_inorder (t : Z) (K l : list Z) :
  2 ≤ t → NoDup K → l ≡ₚ K →
  ∃ tr, insert_all (BTree_init t) l = Ok tr ∧
        finds_exactly tr K ∧ inorder_yields tr K.
Proof.
  intros Ht Hnd Hl.
  destruct (insert_all_distinct t l) as (tr & Hrun & Ho & Hbk & Hp & HS);
    [by rewrite Hl|].
  exists tr. split_and!; [done| |].
  - apply finds_exactly_sorted; [done|by apply sorted_lt_le|by rewrite Hp].
  - exists (inorder_z (root tr)).
    split_and!; [by apply inorder_bk|done|by rewrite Hp].
Qed.

Lemma insert_then_search_and_inorder_witness :
  ∃ tr, insert_all (BTree_init 2) [2; 1; 3; 5; 4] = Ok tr ∧
        finds_exactly tr [1; 2; 3; 4; 5] ∧ inorder_yields tr [1; 2; 3; 4; 5].
Proof.
  apply (insert_then_search_and_inorder 2 [1; 2; 3; 4; 5] [2; 1; 3; 5; 4]).
  - lia.
  - apply (bool_decide_unpack _). vm_compute. exact I.
  - etrans; [apply perm_swap|]. do 3 apply perm_skip. apply perm_swap.
Defined.

Lemma node_counts_shape t h tr :
  shape 0 t h (root tr) → node_counts t tr.
Proof.
  intros Hs. pose proof (shape_bk _ _ _ _ Hs) as Hbk. split.
  - intros x Hx. pose proof (shape_nonroot _ _ _ _ Hs Hx) as Hn.
    assert (node_ok x) as [Hk _].
    { apply Hbk. unfold nonroot_nodes in Hx.
      apply list_elem_of_bind in Hx as (c & Hx & Hc).
      by eapply subnodes_child. }
    split; [lia|done].
  - intros x Hx. destruct Hbk as [Hb _]. destruct (Hb x Hx) as [Hk Hc].
    split; intros Hl; rewrite Hl in Hc; lia.
Qed.

(** C2.  For every order [t >= 2] and every sequence of distinct keys
    inserted into a fresh tree: every node other than the root holds
    between [t-1] and [2t-1] keys, every internal node with [k] keys
    has [k+1] children, every leaf has none. *)
Theorem insert_keeps_node_counts (t : Z) (l : list Z) :
  2 ≤ t → NoDup l →
  ∃ tr, insert_all (BTree_init t) l = Ok tr ∧ node_counts t tr.
Proof.
  intros Ht _.
  destruct (insert_all_spec l (BTree_init t) (bk_init t))
    as (tr & Hrun & _ & _ & _ & _ & Hsh).
  exists tr. split; [done|].
  destruct Hsh as [h Hs]; [done|exists 0%nat; apply shape_init; simpl; lia|].
  by eapply node_counts_shape.
Qed.

Lemma insert_keeps_node_counts_witness :
  ∃ tr, insert_all (BTree_init 3) demo_keys = Ok tr ∧ node_counts 3 tr.
Proof.
  apply (insert_keeps_node_counts 3 demo_keys).
  - lia.
  - apply (bool_decide_unpack _). vm_compute. exact I.
Defined.

(** C3.  For every order [t >= 2] and every tree reached by inserts
    from a fresh tree, one more [insert] succeeds and leaves all leaves
    at one depth; that depth is one more than before exactly when the
    root was full (and was therefore split), and unchanged otherwise. *)
Theorem insert_keeps_leaves_level (t : Z) (tr : BTree) (key : Z) :
  2 ≤ t → reachable t tr →
  ∃ tr' d,
    insert tr key = Ok tr' ∧
    leaves_at tr d ∧
    leaves_at tr' (if n_keys (root tr) =? 2 * t - 1 then S d else d) ∧
    depth (root tr') =
      (if n_keys (root tr) =? 2 * t - 1 then S (depth (root tr))
       else depth (root tr)).
Proof.
  intros Ht Hr. destruct (reachable_bk _ _ Hr) as [Hbk Ho].
  destruct (reachable_shape _ _ Ht Hr) as [h Hs].
  destruct (insert_spec tr key Hbk)
    as (tr' & X & Y & Hrun & _ & _ & _ & _ & _ & Hsh).
  rewrite Ho in Hsh. specialize (Hsh Ht h Hs).
  exists tr', h. split_and!; [done| | |].
  - split; [by eapply shape_leaf_depths_nonempty|].
    intros x. by eapply shape_leaf_depths.
  - split; [by eapply shape_leaf_depths_nonempty|].
    intros x. by eapply shape_leaf_depths.
  - rewrite (shape_depth _ _ _ _ Hs), (shape_depth _ _ _ _ Hsh).
    by destruct (_ =? _).
Qed.

Lemma reachable_demo : reachable 3 demo_tree.
Proof. exists demo_keys. vm_compute. reflexivity. Defined.

(** The searches of the demonstration: 15 at index 1 of its node, 25 at
    index 0, 50 at index 4, 33 at index 0; 1, 2 and 100 are not found. *)
Example demo_searches :
  (λ k, match search demo_tree k with
        | Ok (Found node i) => Some (i, Py.getitem (keys node) i)
        | _ => None
        end) <$> [15; 25; 1; 50; 2; 33; 100]
  = [Some (1, Ok (Some 15)); Some (0, Ok (Some 25)); None;
     Some (4, Ok (Some 50)); None; Some (0, Ok (Some 33)); None] ∧
  (λ k, search demo_tree k) <$> [1; 2; 100]
  = [Ok NotFound; Ok NotFound; Ok NotFound].
Proof. split; vm_compute; reflexivity. Qed.

Lemma insert_keeps_leaves_level_witness :
  ∃ tr' d,
    insert demo_tree 60 = Ok tr' ∧
    leaves_at demo_tree d ∧
    leaves_at tr' (if n_keys (root demo_tree) =? 2 * 3 - 1 then S d else d) ∧
    depth (root tr') =
      (if n_keys (root demo_tree) =? 2 * 3 - 1 then S (depth (root demo_tree))
       else depth (root demo_tree)).
Proof.
  apply (insert_keeps_leaves_level 3 demo_tree 60); [lia|apply reachable_demo].
Defined.

(** C4.  Let [parent.children[i]] hold exactly [2t-1] keys, in nodes
    that have one child more than keys when internal.  Then
    [_split_child(parent, i)] promotes the key at position [t-1] of the
    child: the child keeps its first [t-1] keys, a new sibling gets the
    last [t-1] keys, an internal child keeps its first [t] children and
    hands the last [t] to the sibling; the median lands in
    [parent.keys] at index [i], the sibling in [parent.children] at
    index [i+1], and the parent has one key more. *)
Theorem split_child_promotes_median
    (t : Z) (parent : BTreeNode) (i : nat) (child : BTreeNode) :
  children parent !! i = Some child →
  Z.of_nat (length (keys child)) = 2 * t - 1 →
  length (children parent) = S (length (keys parent)) →
  (is_leaf child = false →
   length (children child) = S (length (keys child))) →
  ∃ parent' median left right,
    _split_child t parent (Z.of_nat i) = Ok parent' ∧
    keys child !! Z.to_nat (t - 1) = Some median ∧
    keys child = keys left ++ median :: keys right ∧
    keys left = take (Z.to_nat (t - 1)) (keys child) ∧
    Z.of_nat (length (keys left)) = t - 1 ∧ n_keys left = t - 1 ∧
    keys right = drop (Z.to_nat t) (keys child) ∧
    Z.of_nat (length (keys right)) = t - 1 ∧ n_keys right = t - 1 ∧
    is_leaf left = is_leaf child ∧ is_leaf right = is_leaf child ∧
    (is_leaf child = false →
     children child = children left ++ children right ∧
     Z.of_nat (length (children left)) = t ∧
     Z.of_nat (length (children right)) = t) ∧
    (is_leaf child = true →
     children left = children child ∧ children right = []) ∧
    keys parent' = take i (keys parent) ++ median :: drop i (keys parent) ∧
    keys parent' !! i = Some median ∧
    children parent' =
      take i (children parent) ++ left :: right :: drop (S i) (children parent) ∧
    children parent' !! i = Some left ∧
    children parent' !! S i = Some right ∧
    length (keys parent') = S (length (keys parent)) ∧
    n_keys parent' = n_keys parent + 1.
Proof.
  intros Hc Hfull Hpar Hint.
  pose proof (lookup_lt_Some _ _ _ Hc) as Hlt.
  destruct (lookup_lt_is_Some_2 (keys child) (Z.to_nat (t - 1)))
    as [m Hm]; [lia|].
  eexists _, m, (split_left t child), (split_right t child).
  split; [by apply (split_child_run t parent i child m); [lia|..|lia]|].
  assert (length (take i (keys parent)) = i) as Hki
    by (rewrite length_take; lia).
  assert (length (take i (children parent)) = i) as Hci
    by (rewrite length_take; lia).
  cbn [keys children n_keys is_leaf split_left split_right].
  split_and!; try done.
  - rewrite <- (take_drop_middle _ _ _ Hm) at 1.
    by replace (S (Z.to_nat (t - 1))) with (Z.to_nat t) by lia.
  - rewrite length_take. lia.
  - rewrite length_drop. lia.
  - intros Hl. rewrite Hl. specialize (Hint Hl).
    rewrite take_drop, length_take, length_drop. split_and!; [done|lia|lia].
  - by intros ->.
  - rewrite lookup_app_r by lia. by rewrite Hki, Nat.sub_diag.
  - rewrite lookup_app_r by lia. by rewrite Hci, Nat.sub_diag.
  - rewrite lookup_app_r by lia.
    by replace (S i - length (take i (children parent)))%nat with 1%nat by lia.
  - rewrite length_app. simpl. rewrite Hki, length_drop. lia.
Qed.

Lemma split_child_promotes_median_witness :
  ∃ parent' median left right,
    _split_child 2 (mkNode 2 false [Some 9] [node_of 2 true [1; 2; 3] [];
                                              node_of 2 true [10] []] 1)
      (Z.of_nat 0) = Ok parent' ∧
    keys (node_of 2 true [1; 2; 3] []) !! Z.to_nat (2 - 1) = Some median ∧
    keys (node_of 2 true [1; 2; 3] []) = keys left ++ median :: keys right ∧
    keys left = take (Z.to_nat (2 - 1)) (keys (node_of 2 true [1; 2; 3] [])) ∧
    Z.of_nat (length (keys left)) = 2 - 1 ∧ n_keys left = 2 - 1 ∧
    keys right = drop (Z.to_nat 2) (keys (node_of 2 true [1; 2; 3] [])) ∧
    Z.of_nat (length (keys right)) = 2 - 1 ∧ n_keys right = 2 - 1 ∧
    is_leaf left = true ∧ is_leaf right = true ∧
    (true = false →
     children (node_of 2 true [1; 2; 3] []) = children left ++ children right ∧
     Z.of_nat (length (children left)) = 2 ∧
     Z.of_nat (length (children right)) = 2) ∧
    (true = true →
     children left = [] ∧ children right = []) ∧
    keys parent' = take 0 [Some 9] ++ median :: drop 0 [Some 9] ∧
    keys parent' !! 0%nat = Some median ∧
    children parent' =
      take 0 [node_of 2 true [1; 2; 3] []; node_of 2 true [10] []] ++
      left :: right ::
      drop 1 [node_of 2 true [1; 2; 3] []; node_of 2 true [10] []] ∧
    children parent' !! 0%nat = Some left ∧
    children parent' !! 1%nat = Some right ∧
    length (keys parent') = 2%nat ∧
    n_keys parent' = 1 + 1.
Proof.
  apply (split_child_promotes_median 2
           (mkNode 2 false [Some 9] [node_of 2 true [1; 2; 3] [];
                                     node_of 2 true [10] []] 1)
           0 (node_of 2 true [1; 2; 3] [])).
  - reflexivity.
  - reflexivity.
  - reflexivity.
  - simpl. discriminate.
Defined.

(** The child count of the parent matters: with no key and two
    children, [keys.insert(1, median)] puts the median at index 0. *)
Example split_child_of_node_without_keys :
  (p ← _split_child 2
         (mkNode 2 false [] [node_of 2 true [0] []; node_of 2 true [1; 2; 3] []] 0)
         1;
   Ok (keys p, keys <$> children p))
  = Ok ([Some 2], [[Some 0]; [Some 1]; [Some 3]]).
Proof. vm_compute. reflexivity. Qed.

(** C5.  On every tree reached by inserts, [search] returns what the
    procedure of the specification returns: at each visited node the
    first position [i] whose key is [>= key] is located; a key equal to
    the target there gives [(node, i)]; otherwise a leaf gives the
    sentinel and an internal node hands the search to [children[i]],
    whose answer is the answer. *)
Theorem search_follows_spec (t : Z) (tr : BTree) (key : Z) :
  reachable t tr →
  search tr key = Ok (spec_search (root tr) key).
Proof.
  intros [Hbk _]%reachable_bk. by apply search_refines_spec.
Qed.

Lemma search_follows_spec_witness :
  search demo_tree 25 = Ok (spec_search (root demo_tree) 25).
Proof. apply (search_follows_spec 3 demo_tree 25), reachable_demo. Defined.

(** C7.  On every tree reached by inserts, the fresh tree included,
    [search] returns a value for every key: a pair [(node, i)] whose
    slot holds the key, or the sentinel.  It raises nothing, so every
    child index of the descent is in range. *)
Theorem search_returns_value (t : Z) (tr : BTree) (key : Z) :
  reachable t tr →
  search tr key = Ok NotFound ∨
  ∃ node i, search tr key = Ok (Found node i) ∧
            Py.getitem (keys node) i = Ok (Some key).
Proof.
  intros Hr. destruct (reachable_bk _ _ Hr) as [Hbk _].
  pose proof (reachable_sorted _ _ Hr) as HS.
  destruct (search_correct key (root tr) Hbk HS) as [Hin Hout].
  destruct (decide (key ∈ inorder_z (root tr))) as [Hk|Hk].
  - right. destruct (Hin Hk) as (x & i & Hrun & _ & Hi).
    exists x, (Z.of_nat i). split; [done|]. by apply getitem_nat.
  - left. by apply Hout.
Qed.

Lemma reachable_fresh t : reachable t (BTree_init t).
Proof. by exists []. Defined.

Lemma search_returns_value_witness :
  search (BTree_init 3) 7 = Ok NotFound ∨
  ∃ node i, search (BTree_init 3) 7 = Ok (Found node i) ∧
            Py.getitem (keys node) i = Ok (Some 7).
Proof. apply (search_returns_value 3 (BTree_init 3) 7), reachable_fresh. Defined.

(** C9.  The bookkeeping invariant ([n_keys == len(keys)] in every node,
    [len(children) == n_keys + 1] in every internal node, no children
    in a leaf) holds for the tree [BTree(t)] constructs; whenever
    [insert] returns, it holds again for the tree [insert] leaves; and
    on a tree whose key lists hold integers [insert] does return.
    [search] assigns to no field. *)
Theorem bookkeeping_preserved (t : Z) (tr : BTree) (key : Z) :
  bookkeeping (root tr) →
  bookkeeping (root (BTree_init t)) ∧
  (∀ tr', insert tr key = Ok tr' → bookkeeping (root tr')) ∧
  (all_int_keys (root tr) →
   ∃ tr', insert tr key = Ok tr' ∧ all_int_keys (root tr')).
Proof.
  intros Hb. split_and!; [apply bk_init| |].
  - intros tr'. by apply bookkeeping_insert.
  - intros Hi. destruct (insert_spec tr key (conj Hb Hi))
      as (tr' & _ & _ & Hrun & _ & [Hb' Hi'] & _).
    by exists tr'.
Qed.

Lemma bookkeeping_preserved_witness :
  bookkeeping (root (BTree_init 3)) ∧
  (∀ tr', insert demo_tree 60 = Ok tr' → bookkeeping (root tr')) ∧
  (all_int_keys (root demo_tree) →
   ∃ tr', insert demo_tree 60 = Ok tr' ∧ all_int_keys (root tr')).
Proof.
  apply (bookkeeping_preserved 3 demo_tree 60).
  apply (reachable_bk 3 demo_tree reachable_demo).
Defined.

Lemma insert_non_full_leaf fuel t tn zs cs key :
  _insert_non_full (S fuel) t (node_of tn true zs cs) key
  = Ok (node_of tn true (ins_list key zs) cs).
Proof.
  rewrite insert_non_full_eq. cbn [n_keys is_leaf keys children node_of].
  rewrite Nat2Z.id. pose proof (leaf_insert_keys key zs) as Hleaf.
  destruct (leaf_shift _ _ _ _) as [[ks i]| |]; try done.
  simpl in Hleaf |- *. rewrite Hleaf, bind_Ok.
  unfold node_of, set_n_keys, set_keys. simpl.
  rewrite length_ins_list. do 2 f_equal. lia.
Qed.

Lemma count_insert (k : Z) X Y :
  length (filter (λ v, v = Some k) (Some <$> (X ++ k :: Y)))
  = S (length (filter (λ v, v = Some k) (Some <$> (X ++ Y)))).
Proof.
  rewrite !fmap_app, fmap_cons, !filter_app, filter_cons_True by done.
  rewrite !length_app. simpl. lia.
Qed.

Lemma count_insert_other (k k' : Z) X Y :
  k' ≠ k →
  length (filter (λ v, v = Some k') (Some <$> (X ++ k :: Y)))
  = length (filter (λ v, v = Some k') (Some <$> (X ++ Y))).
Proof.
  intros Hne. rewrite !fmap_app, fmap_cons, !filter_app.
  rewrite filter_cons_False by (by intros [= ->]). done.
Qed.

(** C10.  [insert] checks for no duplicate: on every tree reached by
    inserts, inserting a key [k] that is already stored succeeds and
    adds one slot, which holds [k], so that the tree then has one copy
    more of [k] (at least two) and every other key as often as before.
    In a leaf the loop moves exactly the keys greater than [k], so the
    new copy lands after every copy the leaf already had. *)
Theorem insert_duplicate_adds_copy (t : Z) (tr : BTree) (k : Z) :
  reachable t tr → Some k ∈ inorder (root tr) →
  (∃ tr', insert tr k = Ok tr' ∧
     length (inorder (root tr')) = S (length (inorder (root tr))) ∧
     count_key k tr' = S (count_key k tr) ∧
     (2 ≤ count_key k tr')%nat ∧
     ∀ k', k' ≠ k → count_key k' tr' = count_key k' tr) ∧
  (∀ fuel tn zs,
     _insert_non_full (S fuel) t (node_of tn true zs []) k
     = Ok (node_of tn true
             (take (ins_pos k zs) zs ++ k :: drop (ins_pos k zs) zs) []) ∧
     Forall (λ x, k < x) (drop (ins_pos k zs) zs) ∧
     (k ∈ zs → k ∈ take (ins_pos k zs) zs)).
Proof.
  intros Hr Hk. destruct (reachable_bk _ _ Hr) as [Hbk _]. split.
  - destruct (insert_spec tr k Hbk)
      as (tr' & X & Y & Hrun & _ & Hbk' & HX & HX' & _).
    exists tr'. unfold count_key.
    rewrite !inorder_bk, HX, HX' by done.
    assert (1 ≤ length (filter (λ v, v = Some k) (Some <$> X ++ Y)))%nat.
    { rewrite inorder_bk, HX in Hk by done.
      assert (Some k ∈ filter (λ v, v = Some k) (Some <$> X ++ Y)) as Hf
        by (by apply list_elem_of_filter).
      destruct (filter _ _); [by apply elem_of_nil in Hf|simpl; lia]. }
    split_and!; [done| | | |].
    + rewrite !length_fmap, !length_app. simpl. lia.
    + apply count_insert.
    + rewrite count_insert. lia.
    + intros k' Hne. by apply count_insert_other.
  - intros fuel tn zs. split_and!.
    + apply insert_non_full_leaf.
    + apply ins_pos_drop.
    + intros Hin. rewrite <- (take_drop (ins_pos k zs) zs) in Hin at 1.
      apply elem_of_app in Hin as [?|Hin]; [done|].
      pose proof (ins_pos_drop k zs) as Hall. rewrite Forall_forall in Hall.
      apply Hall in Hin. lia.
Qed.

Lemma insert_duplicate_adds_copy_witness :
  (∃ tr', insert demo_tree 25 = Ok tr' ∧
     length (inorder (root tr')) = S (length (inorder (root demo_tree))) ∧
     count_key 25 tr' = S (count_key 25 demo_tree) ∧
     (2 ≤ count_key 25 tr')%nat ∧
     ∀ k', k' ≠ 25 → count_key k' tr' = count_key k' demo_tree) ∧
  (∀ fuel tn zs,
     _insert_non_full (S fuel) 3 (node_of tn true zs []) 25
     = Ok (node_of tn true
             (take (ins_pos 25 zs) zs ++ 25 :: drop (ins_pos 25 zs) zs) []) ∧
     Forall (λ x, 25 < x) (drop (ins_pos 25 zs) zs) ∧
     (25 ∈ zs → 25 ∈ take (ins_pos 25 zs) zs)).
Proof.
  apply (insert_duplicate_adds_copy 3 demo_tree 25).
  - apply reachable_demo.
  - apply (list_elem_of_lookup_2 _ 9%nat). reflexivity.
Defined.

(** A copy can also land before the copy the tree already holds: the
    stored 4 is the median of the full leaf, is promoted into the root,
    and the new 4 goes to the left half. *)
Example duplicate_left_of_promoted_median :
  (tr ← insert_all (BTree_init 2) [1; 2; 3; 4; 5; 4];
   Ok (keys (root tr), keys <$> children (root tr)))
  = Ok ([Some 2; Some 4],
        [[Some 1]; [Some 3; Some 4]; [Some 5]]).
Proof. vm_compute. reflexivity. Qed.

(** C6, as stated, fails: after inserting 1, 2, 3, 4 into a tree of
    order 2 the root holds the key 2 and its second child the keys 3
    and 4, which are not [<= keys[0]]. *)
Lemma subtree_order_claimed_fails :
  2 ≤ 2 ∧ NoDup [1; 2; 3; 4] ∧
  ∃ tr, insert_all (BTree_init 2) [1; 2; 3; 4] = Ok tr ∧
        ¬ subtree_order_claimed (root tr).
Proof.
  split; [lia|]. split; [apply (bool_decide_unpack _); vm_compute; exact I|].
  eexists. split; [vm_compute; reflexivity|]. intros Hclaim.
  destruct (Hclaim _ (subnodes_self _) eq_refl 1%nat
              (mkNode 2 true [Some 3; Some 4] [] 2) 3) as [Hprev _].
  - reflexivity.
  - apply (list_elem_of_lookup_2 _ 0%nat). reflexivity.
  - specialize (Hprev 2). simpl in Hprev.
    assert (3 ≤ 2) by (apply Hprev; [lia|reflexivity]). lia.
Qed.

(** C6, amended.  For every order [t >= 2] and every sequence of
    distinct keys inserted into a fresh tree, in every internal node
    with [k] keys all keys stored below [children[i]] are [> keys[i-1]]
    when [i > 0] and [< keys[i]] when [i < k]. *)
Theorem subtree_order_holds (t : Z) (l : list Z) :
  2 ≤ t → NoDup l →
  ∃ tr, insert_all (BTree_init t) l = Ok tr ∧ subtree_order (root tr).
Proof.
  intros _ Hnd.
  destruct (insert_all_distinct t l Hnd) as (tr & Hrun & _ & Hbk & _ & HS).
  exists tr. split; [done|]. by apply subtree_order_sorted.
Qed.

Lemma subtree_order_holds_witness :
  ∃ tr, insert_all (BTree_init 2) [1; 2; 3; 4] = Ok tr ∧
        subtree_order (root tr).
Proof.
  apply (subtree_order_holds 2 [1; 2; 3; 4]).
  - lia.
  - apply (bool_decide_unpack _). vm_compute. exact I.
Defined.

(** * The learned index *)

Lemma sorted_le_lookup (A : list Z) : ∀ (a b : nat) x y,
  StronglySorted Z.le A → A !! a = Some x → A !! b = Some y →
  (a ≤ b)%nat → x ≤ y.
Proof.
  induction A as [|z A IH]; intros a b x y HS Ha Hb Hab; [done|].
  apply StronglySorted_cons in HS as [Hall HS].
  destruct a as [|a], b as [|b]; simplify_eq/=; [lia| |lia|].
  - rewrite Forall_forall in Hall. by eapply Hall, list_elem_of_lookup_2.
  - eapply (IH a b); eauto with lia.
Qed.

Lemma binary_search_sound A key : ∀ steps lo hi i,
  0 ≤ lo → RMI.binary_search A key lo hi steps = Some i →
  A !! Z.to_nat i = Some key ∧ lo ≤ i ≤ hi.
Proof.
  induction steps as [|s IH]; intros lo hi i Hlo; simpl; [done|].
  destruct (Z.leb_spec lo hi) as [Hle|]; [|done].
  assert (lo ≤ (lo + hi) / 2 ≤ hi) as Hmid.
  { split; [apply Z.div_le_lower_bound; lia|apply Z.div_le_upper_bound; lia]. }
  destruct (A !! Z.to_nat ((lo + hi) / 2)) as [x|] eqn:Hx; [|done].
  destruct (Z.eqb_spec x key) as [->|Hne].
  - intros [= <-]. split; [done|lia].
  - destruct (x <? key); intros [Hi Hb]%IH; (split; [done|lia]) || lia.
Qed.

Lemma binary_search_complete A key : ∀ steps lo hi (i : nat),
  StronglySorted Z.le A → 0 ≤ lo → hi < Z.of_nat (length A) →
  lo ≤ Z.of_nat i ≤ hi → A !! i = Some key →
  hi - lo + 1 ≤ Z.of_nat steps →
  ∃ j, RMI.binary_search A key lo hi steps = Some j.
Proof.
  induction steps as [|s IH]; intros lo hi i HS Hlo Hhi Hi Hk Hsteps;
    [lia|]. simpl.
  destruct (Z.leb_spec lo hi) as [Hle|]; [|lia].
  assert (lo ≤ (lo + hi) / 2 ≤ hi) as Hmid.
  { split; [apply Z.div_le_lower_bound; lia|apply Z.div_le_upper_bound; lia]. }
  set (mid := (lo + hi) / 2) in *.
  destruct (lookup_lt_is_Some_2 A (Z.to_nat mid)) as [x Hx]; [lia|].
  rewrite Hx. destruct (Z.eqb_spec x key) as [->|Hne]; [eauto|].
  destruct (Z.ltb_spec x key) as [Hlt|Hge].
  - apply (IH _ _ i); [done|lia|done| |done|lia].
    destruct (decide (Z.of_nat i ≤ mid)); [|lia].
    pose proof (sorted_le_lookup A i (Z.to_nat mid) key x HS Hk Hx). lia.
  - apply (IH _ _ i); [done|lia|lia| |done|lia].
    destruct (decide (mid ≤ Z.of_nat i)); [|lia].
    pose proof (sorted_le_lookup A (Z.to_nat mid) i x key HS Hx Hk). lia.
Qed.

Lemma search_window_sound A key lo hi i :
  0 ≤ lo → RMI.search_window A key lo hi = Some i →
  A !! Z.to_nat i = Some key ∧ 0 ≤ i.
Proof.
  intros Hlo [Hi Hb]%binary_search_sound; [|done]. split; [done|lia].
Qed.

Lemma search_window_complete A key lo hi (i : nat) :
  StronglySorted Z.le A → 0 ≤ lo → hi < Z.of_nat (length A) →
  lo ≤ Z.of_nat i ≤ hi → A !! i = Some key →
  ∃ j, RMI.search_window A key lo hi = Some j.
Proof.
  intros HS Hlo Hhi Hi Hk.
  apply (binary_search_complete A key _ lo hi i); (done || lia).
Qed.

Lemma search_window_absent A key lo hi :
  0 ≤ lo → key ∉ A → RMI.search_window A key lo hi = None.
Proof.
  intros Hlo Hk. destruct (RMI.search_window A key lo hi) as [i|] eqn:Hs; [|done].
  apply search_window_sound in Hs as [Hi _]; [|done].
  destruct Hk. by eapply list_elem_of_lookup_2.
Qed.

(** C8.  For every sorted array, whatever the stage-0 model, the leaf
    models and their error bounds are: [search(k)] returns an index [i]
    with [A[i] == k] for every key present and NotFound for every key
    absent.  The fit plays no part in this; an error bound that covers
    the key decides only that the window is enough, so that no fallback
    to the whole array takes place. *)
Theorem rmi_search_exact (m : RMI.RMIModel) (key : Z) :
  StronglySorted Z.le (RMI.data m) → RMI.leaves m ≠ [] →
  (key ∈ RMI.data m →
   ∃ i, (RMI.search m key).1 = Some i ∧
        RMI.data m !! Z.to_nat i = Some key) ∧
  (key ∉ RMI.data m → (RMI.search m key).1 = None) ∧
  (RMI.bound_covers m key → (RMI.search m key).2 = false).
Proof.
  intros HS _. set (n := Z.of_nat (length (RMI.data m))).
  assert (∀ i0 : nat, RMI.data m !! i0 = Some key →
            ∃ j, RMI.search_window (RMI.data m) key 0 (n - 1) = Some j ∧
                 RMI.data m !! Z.to_nat j = Some key) as Hfull.
  { intros i0 Hi0. pose proof (lookup_lt_Some _ _ _ Hi0).
    destruct (search_window_complete (RMI.data m) key 0 (n - 1) i0)
      as [j Hj]; [done|lia|lia|lia|done|].
    exists j. split; [done|]. by eapply search_window_sound. }
  split_and!.
  - intros [i0 Hi0]%list_elem_of_lookup. unfold RMI.search. fold n.
    destruct (RMI.predict m key) as [[approx bound]|].
    + destruct (RMI.search_window _ _ (Z.max _ _) _) as [i|] eqn:Hw.
      * exists i. split; [done|].
        eapply search_window_sound; [|exact Hw]. lia.
      * destruct (Hfull i0 Hi0) as (j & -> & Hj). eauto.
    + destruct (Hfull i0 Hi0) as (j & -> & Hj). eauto.
  - intros Hk. unfold RMI.search. fold n.
    destruct (RMI.predict m key) as [[approx bound]|]; simpl;
      rewrite ?search_window_absent by (done || lia);
      simpl; by rewrite ?search_window_absent by (done || lia).
  - intros (lf & i0 & Hlf & Hi0 & Hb). unfold RMI.search, RMI.predict.
    rewrite Hlf. simpl. fold n. pose proof (lookup_lt_Some _ _ _ Hi0).
    destruct (search_window_complete (RMI.data m) key
                (Z.max 0 (RMI.clip (RMI.leaf_position lf key) 0 (n - 1)
                          - RMI.max_error lf))
                (Z.min (n - 1) (RMI.clip (RMI.leaf_position lf key) 0 (n - 1)
                                + RMI.max_error lf)) i0)
      as [j ->]; [done|lia|lia| |done|done].
    unfold RMI.clip. lia.
Qed.

Lemma rmi_search_exact_witness :
  let m := RMI.mkRMI (λ _, 0) [RMI.mkLeaf (λ k, k / 2) 0] [0; 2; 4; 6] in
  (4 ∈ RMI.data m →
   ∃ i, (RMI.search m 4).1 = Some i ∧ RMI.data m !! Z.to_nat i = Some 4) ∧
  (4 ∉ RMI.data m → (RMI.search m 4).1 = None) ∧
  (RMI.bound_covers m 4 → (RMI.search m 4).2 = false).
Proof.
  apply (rmi_search_exact
           (RMI.mkRMI (λ _, 0) [RMI.mkLeaf (λ k, k / 2) 0] [0; 2; 4; 6]) 4).
  - simpl. repeat (constructor; [|repeat constructor; lia]). constructor.
  - discriminate.
Defined.

(** * Further properties of the B-Tree code *)

(** ** Any sequence of keys, any order *)


Lemma search_NotFound_iff tr k :
  bk (root tr) → StronglySorted Z.le (inorder_z (root tr)) →
  search tr k = Ok NotFound ↔ k ∉ inorder_z (root tr).
Proof.
  intros Hbk HS. destruct (search_correct k (root tr) Hbk HS) as [Hin Hout].
  split; [|done]. intros Hnf Hk. destruct (Hin Hk) as (x & i & Hrun & _).
  unfold search in Hnf. by rewrite Hrun in Hnf.
Qed.

(** X2.  On every tree reached by inserts, one more [insert(k)] returns,
    after it [search(k)] finds [k], and for every other key [search]
    answers found or not found as it did before. *)
Theorem search_after_insert (t : Z) (tr : BTree) (k : Z) :
  reachable t tr →
  ∃ tr', insert tr k = Ok tr' ∧
    (∃ node i, search tr' k = Ok (Found node i) ∧
               node ∈ subnodes (root tr') ∧
               Py.getitem (keys node) i = Ok (Some k)) ∧
    ∀ k', k' ≠ k →
      (search tr' k' = Ok NotFound ↔ search tr k' = Ok NotFound).
Proof.
  intros Hr. destruct (reachable_bk _ _ Hr) as [Hbk _].
  pose proof (reachable_sorted _ _ Hr) as HS.
  destruct (insert_spec tr k Hbk)
    as (tr' & X & Y & Hrun & _ & Hbk' & HX & HX' & HS' & _).
  specialize (HS' HS). exists tr'. split_and!; [done| |].
  - destruct (search_correct k (root tr') Hbk' HS') as [Hin _].
    destruct Hin as (x & i & Hs & Hx & Hi).
    { rewrite HX'. apply elem_of_app. right. by left. }
    exists x, (Z.of_nat i). split_and!; [done..|]. by apply getitem_nat.
  - intros k' Hne. rewrite !search_NotFound_iff, HX, HX' by done.
    rewrite !elem_of_app, elem_of_cons. naive_solver.
Qed.

Lemma search_after_insert_witness :
  ∃ tr', insert demo_tree 21 = Ok tr' ∧
    (∃ node i, search tr' 21 = Ok (Found node i) ∧
               node ∈ subnodes (root tr') ∧
               Py.getitem (keys node) i = Ok (Some 21)) ∧
    ∀ k', k' ≠ 21 →
      (search tr' k' = Ok NotFound ↔ search demo_tree k' = Ok NotFound).
Proof. apply (search_after_insert 3 demo_tree 21), reachable_demo. Defined.

(** ** Induction over the trees reached by inserts *)

Lemma insert_all_app tr l1 l2 :
  insert_all tr (l1 ++ l2) = tr' ← insert_all tr l1; insert_all tr' l2.
Proof.
  revert tr. induction l1 as [|k l1 IH]; intros tr; [done|]. simpl.
  destruct (insert tr k) as [tr1| |]; [|done..]. by rewrite !bind_Ok, IH.
Qed.

Lemma reachable_step t tr k tr' :
  reachable t tr → insert tr k = Ok tr' → reachable t tr'.
Proof.
  intros [l Hl] Hk. exists (l ++ [k]).
  rewrite insert_all_app, Hl, bind_Ok. simpl. by rewrite Hk.
Qed.

Lemma reachable_induction t (P : BTree → Prop) :
  P (BTree_init t) →
  (∀ tr k tr', reachable t tr → P tr → insert tr k = Ok tr' → P tr') →
  ∀ tr, reachable t tr → P tr.
Proof.
  intros H0 Hstep tr [l Hl]. revert tr Hl.
  induction l as [|k l IH] using rev_ind; intros tr Hl.
  - simpl in Hl. by simplify_eq.
  - rewrite insert_all_app in Hl.
    destruct (insert_all (BTree_init t) l) as [tr1| |] eqn:H1; [|done..].
    rewrite bind_Ok in Hl. simpl in Hl.
    destruct (insert tr1 k) as [tr2| |] eqn:H2; [|done..].
    rewrite bind_Ok in Hl. simplify_eq.
    eapply Hstep; [by exists l|by apply IH|done].
Qed.

(** ** The root *)

Lemma ins_rel_top t key node node' :
  ins_rel t key node node' →
  is_leaf node' = is_leaf node ∧ n_keys node ≤ n_keys node'.
Proof.
  destruct 1; simpl; rewrite ?length_ins_list, ?length_app; simpl;
    rewrite ?length_take, ?length_drop; split; (done || lia).
Qed.

Lemma root_internal_has_key t tr :
  reachable t tr → is_leaf (root tr) = false → 1 ≤ n_keys (root tr).
Proof.
  intros Hr. pattern tr. revert tr Hr. apply reachable_induction; [done|].
  intros tr k tr' Hr IH Hins. destruct (reachable_bk _ _ Hr) as [Hbk Ho].
  destruct (insert_run tr k Hbk) as (r' & Hrun & Hrel).
  rewrite Hins in Hrun. simplify_eq. simpl.
  apply ins_rel_top in Hrel as [-> Hn]. intros Hl.
  assert (1 ≤ n_keys (grow (order tr) (root tr))); [|lia].
  unfold grow in *. destruct (_ =? _); [|by apply IH].
  destruct (keys (root tr) !! _); [done|by apply IH].
Qed.

(** X3.  For every order [t >= 2], the root of every tree reached by
    inserts holds at most [2t-1] keys; when it is not a leaf it holds
    at least one key and has one child more than keys, so at least two
    children. *)
Theorem root_key_bounds (t : Z) (tr : BTree) :
  2 ≤ t → reachable t tr →
  Z.of_nat (length (keys (root tr))) ≤ 2 * t - 1 ∧
  n_keys (root tr) = Z.of_nat (length (keys (root tr))) ∧
  (is_leaf (root tr) = false →
   (1 ≤ length (keys (root tr)))%nat ∧
   length (children (root tr)) = S (length (keys (root tr)))).
Proof.
  intros Ht Hr. destruct (reachable_shape _ _ Ht Hr) as [h Hs].
  pose proof (root_internal_has_key _ _ Hr) as Hk.
  apply shape_unfold in Hs as ([Hn Hc] & _ & Hb & _).
  split_and!; [lia|done|]. intros Hl. rewrite Hl in Hc.
  specialize (Hk Hl). lia.
Qed.

Lemma root_key_bounds_witness :
  Z.of_nat (length (keys (root demo_tree))) ≤ 2 * 3 - 1 ∧
  n_keys (root demo_tree) = Z.of_nat (length (keys (root demo_tree))) ∧
  (is_leaf (root demo_tree) = false →
   (1 ≤ length (keys (root demo_tree)))%nat ∧
   length (children (root demo_tree)) = S (length (keys (root demo_tree)))).
Proof. apply (root_key_bounds 3 demo_tree); [lia|apply reachable_demo]. Defined.

(** ** How many keys a tree of a given height holds *)

Lemma length_weave {A} (css : list (list A)) (ks : list A) :
  length (weave css ks) = (length ks + sum_list_with length css)%nat.
Proof.
  revert ks. induction css as [|c css IH]; intros ks; simpl; [lia|].
  destruct ks as [|k ks]; rewrite length_app; simpl; rewrite IH; simpl; lia.
Qed.

Lemma length_inorder_z_node_of tn leaf zs cs :
  length (inorder_z (node_of tn leaf zs cs))
  = (length zs + sum_list_with (λ c, length (inorder_z c)) cs)%nat.
Proof.
  rewrite inorder_z_node_of, length_weave. f_equal.
  induction cs as [|c cs IH]; [done|].
  rewrite fmap_cons. simpl. f_equal. exact IH.
Qed.

Lemma sum_list_with_bounds {A} (f : A → nat) (a b : Z) (l : list A) :
  Forall (λ x, a ≤ Z.of_nat (f x) ≤ b) l →
  Z.of_nat (length l) * a ≤ Z.of_nat (sum_list_with f l)
    ≤ Z.of_nat (length l) * b.
Proof.
  induction 1 as [|x l Hx _ IH]; simpl; [lia|].
  rewrite Nat2Z.inj_succ, Nat2Z.inj_add, !Z.mul_succ_l. lia.
Qed.

Lemma shape_key_count t : 1 ≤ t → ∀ h node,
  shape (t - 1) t h node →
  t ^ (Z.of_nat h + 1) - 1 ≤ Z.of_nat (length (inorder_z node))
    ≤ (2 * t) ^ (Z.of_nat h + 1) - 1.
Proof.
  intros Ht. induction h as [|h IH]; intros node Hs;
    destruct (shape_inv _ _ _ _ Hs) as (tn & leaf & zs & cs & ->);
    apply shape_node_of in Hs as (Hc & Hk & Hh);
    rewrite length_inorder_z_node_of.
  - subst leaf cs. simpl. rewrite !Z.pow_1_r. lia.
  - destruct Hh as [-> Hcs].
    assert (Forall (λ c, t ^ (Z.of_nat h + 1) - 1
                         ≤ Z.of_nat (length (inorder_z c))
                         ≤ (2 * t) ^ (Z.of_nat h + 1) - 1) cs) as Hall.
    { eapply Forall_impl; [exact Hcs|]. intros c. apply IH. }
    apply sum_list_with_bounds in Hall. rewrite Hc in Hall.
    replace (Z.of_nat (S h) + 1) with (Z.succ (Z.of_nat h + 1)) by lia.
    rewrite !Z.pow_succ_r by lia.
    assert (0 < t ^ (Z.of_nat h + 1)) by (apply Z.pow_pos_nonneg; lia).
    assert (0 < (2 * t) ^ (Z.of_nat h + 1)) by (apply Z.pow_pos_nonneg; lia).
    rewrite Nat2Z.inj_add. nia.
Qed.

(** X4.  For every order [t >= 2], a tree reached by inserts that holds
    [n >= 1] keys and has [d] levels satisfies [2 * t^(d-1) <= n + 1]
    and [n <= (2t)^d - 1]: the number of levels is at most
    [1 + log_t((n+1)/2)]. *)
Theorem height_is_logarithmic (t : Z) (tr : BTree) :
  2 ≤ t → reachable t tr → inorder (root tr) ≠ [] →
  2 * t ^ (Z.of_nat (depth (root tr)) - 1)
    ≤ Z.of_nat (length (inorder (root tr))) + 1 ∧
  Z.of_nat (length (inorder (root tr)))
    ≤ (2 * t) ^ Z.of_nat (depth (root tr)) - 1.
Proof.
  intros Ht Hr Hne. destruct (reachable_bk _ _ Hr) as [Hbk _].
  destruct (reachable_shape _ _ Ht Hr) as [h Hs].
  pose proof (root_internal_has_key _ _ Hr) as Hroot.
  rewrite (shape_depth _ _ _ _ Hs). rewrite inorder_bk in Hne |- * by done.
  rewrite length_fmap.
  assert (inorder_z (root tr) ≠ []) as Hne' by (by intros Heq; rewrite Heq in Hne).
  clear Hne. destruct (shape_inv _ _ _ _ Hs) as (tn & leaf & zs & cs & Heq).
  rewrite Heq in *. apply shape_node_of in Hs as (Hc & Hk & Hh).
  rewrite length_inorder_z_node_of in *. simpl in Hroot.
  replace (Z.of_nat (S h) - 1) with (Z.of_nat h) by lia.
  destruct h as [|h].
  - subst leaf cs. rewrite inorder_z_node_of in Hne'. simpl in *.
    destruct zs; [done|]. simpl in *. lia.
  - destruct Hh as [-> Hcs]. specialize (Hroot eq_refl).
    assert (Forall (λ c, t ^ (Z.of_nat h + 1) - 1
                         ≤ Z.of_nat (length (inorder_z c))
                         ≤ (2 * t) ^ (Z.of_nat h + 1) - 1) cs) as Hall.
    { eapply Forall_impl; [exact Hcs|]. intros c. apply shape_key_count. lia. }
    apply sum_list_with_bounds in Hall. rewrite Hc in Hall.
    replace (Z.of_nat (S (S h))) with (Z.succ (Z.of_nat h + 1)) by lia.
    replace (Z.of_nat (S h)) with (Z.of_nat h + 1) by lia.
    rewrite Z.pow_succ_r by lia.
    assert (0 < t ^ (Z.of_nat h + 1)) by (apply Z.pow_pos_nonneg; lia).
    assert (0 < (2 * t) ^ (Z.of_nat h + 1)) by (apply Z.pow_pos_nonneg; lia).
    rewrite Nat2Z.inj_add. nia.
Qed.

Lemma height_is_logarithmic_witness :
  2 * 3 ^ (Z.of_nat (depth (root demo_tree)) - 1)
    ≤ Z.of_nat (length (inorder (root demo_tree))) + 1 ∧
  Z.of_nat (length (inorder (root demo_tree)))
    ≤ (2 * 3) ^ Z.of_nat (depth (root demo_tree)) - 1.
Proof.
  apply (height_is_logarithmic 3 demo_tree);
    [lia|apply reachable_demo|discriminate].
Defined.

(** ** The keys of one node *)

Lemma sorted_weave_keys (R : relation Z) (css : list (list Z)) (ks : list Z) :
  StronglySorted R (weave css ks) → StronglySorted R ks.
Proof.
  revert ks. induction css as [|c css IH]; intros ks; [done|].
  destruct ks as [|k ks]; [constructor|]. simpl.
  intros [Hk HS]%StronglySorted_app_1_r%StronglySorted_cons.
  apply StronglySorted_cons. split; [|by apply IH].
  rewrite Forall_forall in Hk |- *. intros x Hx. apply Hk.
  apply elem_of_weave. by left.
Qed.

(** X5.  Whatever the order and the keys inserted into a fresh tree, in
    every node of the resulting tree the key list holds integers in
    non-decreasing order, and in strictly increasing order when no key
    was inserted twice. *)
Theorem node_keys_sorted (t : Z) (l : list Z) :
  ∃ tr, insert_all (BTree_init t) l = Ok tr ∧
        ∀ x, x ∈ subnodes (root tr) →
          ∃ zs, keys x = Some <$> zs ∧ StronglySorted Z.le zs ∧
                (NoDup l → StronglySorted Z.lt zs).
Proof.
  destruct (insert_all_spec l (BTree_init t) (bk_init t))
    as (tr & Hrun & _ & Hbk & Hp & Hs & _).
  simpl in Hp. specialize (Hs ltac:(constructor)).
  exists tr. split; [done|]. intros x Hx.
  pose proof (bk_subnodes _ _ Hbk Hx) as Hbkx.
  destruct (bk_inv _ Hbkx) as (tn & leaf & zs & cs & -> & _).
  exists zs. split_and!; [done| |].
  - pose proof (sorted_subnodes _ _ _ Hbk Hs Hx) as HSx.
    rewrite inorder_z_node_of in HSx. by eapply sorted_weave_keys.
  - intros Hnd.
    assert (StronglySorted Z.lt (inorder_z (root tr))) as Hlt
      by (apply sorted_le_NoDup_lt; [done|by rewrite Hp]).
    pose proof (sorted_subnodes _ _ _ Hbk Hlt Hx) as HSx.
    rewrite inorder_z_node_of in HSx. by eapply sorted_weave_keys.
Qed.

(** ** [_split_child] on its own *)

(** X6.  When [parent] is an internal node of a well-formed tree and
    its child [i] is full, [_split_child(parent, i)] returns and the
    in-order traversal of [parent] is what it was: no key is lost,
    repeated or moved past another. *)
Theorem split_child_keeps_inorder
    (t : Z) (parent : BTreeNode) (i : nat) (c : BTreeNode) :
  bookkeeping parent → all_int_keys parent → is_leaf parent = false →
  children parent !! i = Some c → n_keys c = 2 * t - 1 →
  ∃ parent', _split_child t parent (Z.of_nat i) = Ok parent' ∧
             inorder parent' = inorder parent ∧
             bookkeeping parent' ∧ all_int_keys parent'.
Proof.
  intros Hb Hi Hleaf Hc Hfull. assert (bk parent) as Hbk by done.
  destruct (bk_inv _ Hbk) as (tn & leaf & zs & cs & -> & Hlen & Hcs).
  simpl in Hleaf, Hc. subst leaf.
  pose proof (lookup_lt_Some _ _ _ Hc) as Hlt.
  assert (bk c) as Hbkc by (by eapply Forall_lookup_1).
  destruct (bk_inv _ Hbkc) as (tc & lc & zc & cc & Hceq & _).
  assert (Z.of_nat (length zc) = 2 * t - 1) as Hzc by (by subst c).
  destruct (full_median t zc Hzc) as [m Hm].
  assert (keys c !! Z.to_nat (t - 1) = Some (Some m)) as Hkm.
  { subst c. simpl. by rewrite list_lookup_fmap, Hm. }
  rewrite (split_child_run t _ i c (Some m))
    by (simpl; rewrite ?length_fmap; (lia || done)).
  cbn [node_t is_leaf keys children n_keys node_of].
  rewrite node_of_insert_key by lia. eexists. split; [done|].
  assert (bk (node_of tn false (take i zs ++ m :: drop i zs)
                (take i cs ++ split_left t c :: split_right t c
                   :: drop (S i) cs))) as Hbk'.
  { apply bk_node_of.
    - rewrite !length_app. simpl. rewrite !length_take, !length_drop. lia.
    - apply Forall_app. split; [by apply Forall_take|].
      apply Forall_cons_2; [by apply bk_split_left|].
      apply Forall_cons_2; [by apply bk_split_right|by apply Forall_drop]. }
  split; [|exact Hbk'].
  rewrite !inorder_bk by done. f_equal.
  rewrite inorder_z_two, (inorder_z_at _ _ _ _ i c Hc) by lia.
  rewrite (inorder_z_split t c m) by done. app_norm.
Qed.

Lemma split_child_keeps_inorder_witness :
  ∃ parent',
    _split_child 2
      (node_of 2 false [9] [node_of 2 true [1; 2; 3] []; node_of 2 true [10] []])
      (Z.of_nat 0) = Ok parent' ∧
    inorder parent'
    = inorder (node_of 2 false [9]
                 [node_of 2 true [1; 2; 3] []; node_of 2 true [10] []]) ∧
    bookkeeping parent' ∧ all_int_keys parent'.
Proof.
  assert (bk (node_of 2 false [9]
                [node_of 2 true [1; 2; 3] []; node_of 2 true [10] []])) as [Hb Hi].
  { apply bk_node_of; [reflexivity|].
    apply Forall_cons_2; [by apply bk_node_of|].
    apply Forall_cons_2; [by apply bk_node_of|constructor]. }
  apply (split_child_keeps_inorder 2 _ 0 (node_of 2 true [1; 2; 3] []));
    [exact Hb|exact Hi|reflexivity|reflexivity|reflexivity].
Defined.

(** X7.  For [t >= 1] and an index [i >= 0], [_split_child(parent, i)]
    returns exactly when [i] is an index of [parent.children] and that
    child holds at least [t] keys; in every other case it raises
    [IndexError].  It does not check that the child is full. *)
Theorem split_child_returns_iff (t : Z) (parent : BTreeNode) (i : nat) :
  1 ≤ t →
  ((∃ c, children parent !! i = Some c ∧ t ≤ Z.of_nat (length (keys c))) →
   ∃ parent', _split_child t parent (Z.of_nat i) = Ok parent') ∧
  (¬ (∃ c, children parent !! i = Some c ∧ t ≤ Z.of_nat (length (keys c))) →
   _split_child t parent (Z.of_nat i) = Raise IndexError).
Proof.
  intros Ht. unfold _split_child. split.
  - intros (c & Hc & Hk). rewrite (getitem_nat _ _ _ Hc), bind_Ok.
    destruct (lookup_lt_is_Some_2 (keys c) (Z.to_nat (t - 1))) as [m Hm];
      [lia|].
    rewrite (getitem_nonneg _ _ m) by (lia || done). rewrite bind_Ok.
    pose proof (lookup_lt_Some _ _ _ Hc) as Hlt.
    destruct (negb _); rewrite setitem_nat by done; rewrite bind_Ok; eauto.
  - intros Hno. destruct (children parent !! i) as [c|] eqn:Hc;
      [|by rewrite getitem_nat_None].
    rewrite (getitem_nat _ _ _ Hc), bind_Ok.
    assert (Z.of_nat (length (keys c)) < t) as Hk.
    { destruct (decide (t ≤ Z.of_nat (length (keys c)))); [|lia].
      destruct Hno. eauto. }
    replace (t - 1) with (Z.of_nat (Z.to_nat (t - 1))) by lia.
    rewrite getitem_nat_None; [done|]. apply lookup_ge_None_2. lia.
Qed.

Lemma split_child_returns_iff_witness :
  ((∃ c, children (node_of 2 false [] [node_of 2 true [1; 2] []]) !! 0%nat
         = Some c ∧ 2 ≤ Z.of_nat (length (keys c))) →
   ∃ parent',
     _split_child 2 (node_of 2 false [] [node_of 2 true [1; 2] []])
       (Z.of_nat 0) = Ok parent') ∧
  (¬ (∃ c, children (node_of 2 false [] [node_of 2 true [1; 2] []]) !! 0%nat
           = Some c ∧ 2 ≤ Z.of_nat (length (keys c))) →
   _split_child 2 (node_of 2 false [] [node_of 2 true [1; 2] []])
     (Z.of_nat 0) = Raise IndexError).
Proof.
  apply (split_child_returns_iff 2
           (node_of 2 false [] [node_of 2 true [1; 2] []]) 0). lia.
Defined.

(** ** Orders below 2 *)

Lemma insert_leaf_root t (s : list Z) k :
  Z.of_nat (length s) ≠ 2 * t - 1 →
  insert (mkBTree t (node_of t true s [])) k
  = Ok (mkBTree t (node_of t true (ins_list k s) [])).
Proof.
  intros Hroom. unfold insert. cbn [order root n_keys node_of].
  destruct (Z.eqb_spec (Z.of_nat (length s)) (2 * t - 1)); [done|].
  by rewrite insert_non_full_leaf.
Qed.

(** X8.  An order [t <= 0] is accepted: no node is ever split, and the
    tree stays a single leaf whose key list is the inserted sequence,
    sorted. *)
Theorem nonpositive_order_single_leaf (t : Z) (l : list Z) :
  t ≤ 0 →
  ∃ s, insert_all (BTree_init t) l = Ok (mkBTree t (node_of t true s [])) ∧
       StronglySorted Z.le s ∧ s ≡ₚ l.
Proof.
  intros Ht.
  assert (∀ l s0, ∃ s,
            insert_all (mkBTree t (node_of t true s0 [])) l
            = Ok (mkBTree t (node_of t true s []))) as Hleaf.
  { clear l. induction l as [|k l IH]; intros s0; simpl; [eauto|].
    rewrite insert_leaf_root by lia. rewrite bind_Ok. apply IH. }
  destruct (Hleaf l []) as [s Hs]. exists s. split; [exact Hs|].
  destruct (insert_all_spec l (BTree_init t) (bk_init t))
    as (tr & Hrun & _ & _ & Hp & HS & _).
  change (BTree_init t) with (mkBTree t (node_of t true [] [])) in Hrun.
  rewrite Hs in Hrun. simplify_eq. simpl in Hp, HS.
  rewrite omap_id_Some in Hp, HS. split; [apply HS; constructor|done].
Qed.

Lemma nonpositive_order_single_leaf_witness :
  ∃ s, insert_all (BTree_init 0) [3; 1; 2; 1]
       = Ok (mkBTree 0 (node_of 0 true s [])) ∧
       StronglySorted Z.le s ∧ s ≡ₚ [3; 1; 2; 1].
Proof. apply (nonpositive_order_single_leaf 0 [3; 1; 2; 1]). lia. Defined.








(** ** [long_running_task] *)

Lemma range_sum_from (k : nat) : ∀ m a,
  2 * foldl (λ sum_val i, sum_val + i) a (seqZ m (Z.of_nat k))
  = 2 * a + 2 * Z.of_nat k * m + Z.of_nat k * (Z.of_nat k - 1).
Proof.
  induction k as [|k IH]; intros m a.
  - simpl. lia.
  - rewrite seqZ_cons by lia. simpl foldl.
    replace (Z.pred (Z.of_nat (S k))) with (Z.of_nat k) by lia.
    rewrite IH. lia.
Qed.

(** X10.  [long_running_task(n)] returns [n (n - 1) / 2] for every
    [n >= 0] and 0 for every negative [n]. *)
Theorem long_running_task_closed_form (n : Z) :
  long_running_task n = if 0 <=? n then n * (n - 1) / 2 else 0.
Proof.
  unfold long_running_task. destruct (Z.leb_spec 0 n) as [Hn|Hn].
  - pose proof (range_sum_from (Z.to_nat n) 0 0) as Hsum.
    rewrite Z2Nat.id in Hsum by done.
    apply Z.div_unique_exact; lia.
  - by rewrite seqZ_nil by lia.
Qed.

(** ** Keys inserted in increasing order *)

Lemma off_spine_unfold node :
  off_spine node = off_spine_children (children node).
Proof.
  destruct node as [tn leaf ks cs n]. simpl.
  induction cs as [|c cs IH]; [done|]. destruct cs as [|c' cs]; [done|].
  by rewrite IH.
Qed.

Lemma off_spine_children_snoc l c :
  off_spine_children (l ++ [c]) = (l ≫= subnodes) ++ off_spine c.
Proof.
  induction l as [|a l IH]; [done|].
  change ((a :: l) ++ [c]) with (a :: (l ++ [c])).
  change ((a :: l) ≫= subnodes) with (subnodes a ++ (l ≫= subnodes)).
  rewrite <- (assoc_L (++)), <- IH. by destruct l.
Qed.

Lemma ins_pos_last key zs :
  (∀ x, last zs = Some x → x ≤ key) → ins_pos key zs = length zs.
Proof.
  destruct zs as [|x zs _] using rev_ind; [done|]. intros Hl.
  rewrite ins_pos_snoc, length_app. simpl.
  specialize (Hl x (last_snoc _ _)).
  destruct (Z.ltb_spec key x); lia.
Qed.

Lemma elem_of_keys_inorder_z tn leaf zs cs x :
  x ∈ zs → x ∈ inorder_z (node_of tn leaf zs cs).
Proof. intros Hx. rewrite inorder_z_node_of, elem_of_weave. by left. Qed.

Lemma elem_of_child_inorder_z tn leaf zs cs c x :
  c ∈ cs → x ∈ inorder_z c → x ∈ inorder_z (node_of tn leaf zs cs).
Proof.
  intros Hc Hx. rewrite inorder_z_node_of, elem_of_weave. right.
  exists (inorder_z c). split; [by apply list_elem_of_fmap_2|done].
Qed.

(** The halves of a full node that is lean off its rightmost path. *)
Lemma lean_split t c :
  bk c → n_keys c = 2 * t - 1 → lean_off_spine t c →
  (∀ x, x ∈ subnodes (split_left t c) →
     n_keys x = t - 1 ∧ Z.of_nat (length (keys x)) = t - 1) ∧
  lean_off_spine t (split_right t c).
Proof.
  intros Hbk Hfull Hlean.
  destruct (bk_inv _ Hbk) as (tc & lc & zc & cc & -> & Hcc & _).
  simpl in Hfull. unfold lean_off_spine in *.
  rewrite off_spine_unfold in Hlean. cbn [children node_of] in Hlean.
  rewrite split_left_node_of, split_right_node_of by done.
  destruct lc.
  - subst cc. split.
    + intros x [->|(c & []%elem_of_nil & _)]%elem_of_subnodes.
      cbn [n_keys keys node_of]. rewrite length_fmap, length_take. lia.
    + intros x. rewrite off_spine_unfold. simpl. by intros ?%elem_of_nil.
  - destruct cc as [|c0 cc _] using rev_ind; [simpl in Hcc; lia|].
    rewrite length_app in Hcc. simpl in Hcc.
    rewrite off_spine_children_snoc in Hlean.
    rewrite take_app_le, drop_app_le by lia. split.
    + intros x [->|(c & Hc & Hx)]%elem_of_subnodes.
      * cbn [n_keys keys node_of]. rewrite length_fmap, length_take. lia.
      * apply Hlean, elem_of_app. left. apply list_elem_of_bind.
        exists c. split; [done|]. simpl in Hc. by eapply subseteq_take.
    + intros x. rewrite off_spine_unfold. cbn [children node_of].
      rewrite off_spine_children_snoc. intros Hx. apply Hlean.
      apply elem_of_app in Hx as [Hx|Hx]; apply elem_of_app; [left|by right].
      apply list_elem_of_bind in Hx as (c & Hx & Hc).
      apply list_elem_of_bind. exists c. split; [done|].
      by eapply subseteq_drop.
Qed.

Lemma lean_ins_rel t key node node' :
  ins_rel t key node node' → bk node →
  (∀ x, x ∈ inorder_z node → x < key) →
  lean_off_spine t node → lean_off_spine t node'.
Proof.
  induction 1 as [tn zs cs|tn zs cs c c' Hc Hn Hrel IH
                 |tn zs cs c m c' Hc Hn Hm Hrel IH];
    intros Hbk Hmax Hlean; pose proof Hbk as [Hlen Hcs]%bk_node_of_inv.
  - subst cs. intros x. rewrite off_spine_unfold. simpl.
    by intros ?%elem_of_nil.
  - assert (ins_pos key zs = length zs) as Hp.
    { apply ins_pos_last. intros x Hx%last_Some_elem_of.
      pose proof (Hmax x (elem_of_keys_inorder_z _ _ _ _ _ Hx)). lia. }
    rewrite Hp in *.
    assert (cs = take (length zs) cs ++ [c]) as Hcs'.
    { rewrite <- (take_drop_middle cs _ c Hc) at 1.
      by rewrite drop_ge by lia. }
    unfold lean_off_spine in *. rewrite off_spine_unfold in Hlean |- *.
    cbn [children node_of] in *. rewrite Hcs' in Hlean |- *.
    rewrite insert_app_r_alt by (rewrite length_take; lia).
    rewrite length_take, Nat.min_l, Nat.sub_diag by lia. simpl.
    rewrite off_spine_children_snoc in Hlean |- *.
    intros x [Hx|Hx]%elem_of_app; [apply Hlean, elem_of_app; by left|].
    revert x Hx. apply IH.
    + by eapply Forall_lookup_1.
    + intros x Hx. eapply Hmax, elem_of_child_inorder_z; [|done].
      by eapply list_elem_of_lookup_2.
    + intros x Hx. apply Hlean, elem_of_app. by right.
  - assert (ins_pos key zs = length zs) as Hp.
    { apply ins_pos_last. intros x Hx%last_Some_elem_of.
      pose proof (Hmax x (elem_of_keys_inorder_z _ _ _ _ _ Hx)). lia. }
    rewrite Hp in *.
    assert (bk c) as Hbkc by (by eapply Forall_lookup_1).
    assert (∀ x, x ∈ inorder_z c → x < key) as Hmaxc.
    { intros x Hx. eapply Hmax, elem_of_child_inorder_z; [|done].
      by eapply list_elem_of_lookup_2. }
    pose proof (inorder_z_split t c m Hbkc Hn Hm) as Hsplit.
    assert ((key >? m) = true) as Hgt.
    { assert (m < key); [|lia]. apply Hmaxc. rewrite Hsplit.
      apply elem_of_app. right. by left. }
    rewrite Hgt in *.
    assert (cs = take (length zs) cs ++ [c]) as Hcs'.
    { rewrite <- (take_drop_middle cs _ c Hc) at 1.
      by rewrite drop_ge by lia. }
    assert (lean_off_spine t c) as Hleanc.
    { intros x Hx. apply Hlean. rewrite off_spine_unfold.
      cbn [children node_of]. rewrite Hcs', off_spine_children_snoc.
      apply elem_of_app. by right. }
    destruct (lean_split t c Hbkc Hn Hleanc) as [HL HR].
    unfold lean_off_spine. rewrite off_spine_unfold.
    cbn [children node_of].
    rewrite insert_two_r by (rewrite length_take; lia).
    rewrite drop_ge by lia.
    change (take (length zs) cs ++ [split_left t c; c'])
      with (take (length zs) cs ++ [split_left t c] ++ [c']).
    rewrite (assoc_L (++)), off_spine_children_snoc.
    intros x [Hx|Hx]%elem_of_app.
    + rewrite bind_app in Hx. apply elem_of_app in Hx as [Hx|Hx].
      * apply Hlean. rewrite off_spine_unfold. cbn [children node_of].
        rewrite Hcs', off_spine_children_snoc. apply elem_of_app. by left.
      * simpl in Hx. rewrite app_nil_r in Hx. by apply HL.
    + revert x Hx. apply IH; [by apply bk_split_right| |done].
      intros x Hx. apply Hmaxc. rewrite Hsplit.
      apply elem_of_app. right. by right.
Qed.

Lemma lean_grow t r :
  bk r → lean_off_spine t r → lean_off_spine t (grow t r).
Proof.
  intros Hbk Hlean. unfold grow.
  destruct (Z.eqb_spec (n_keys r) (2 * t - 1)) as [Hfull|]; [|done].
  destruct (keys r !! _) as [m|]; [|done].
  destruct (lean_split t r Hbk Hfull Hlean) as [HL HR].
  intros x. rewrite off_spine_unfold. cbn [children off_spine_children].
  intros [Hx|Hx]%elem_of_app; [by apply HL|by apply HR].
Qed.

Lemma lean_insert_all t l : ∀ tr,
  order tr = t → bk (root tr) → lean_off_spine t (root tr) →
  StronglySorted Z.lt l →
  (∀ x y, x ∈ inorder_z (root tr) → y ∈ l → x < y) →
  ∃ tr', insert_all tr l = Ok tr' ∧ lean_off_spine t (root tr').
Proof.
  induction l as [|k l IH]; intros tr Ho Hbk Hlean HS Hlt; simpl; [eauto|].
  destruct (insert_run tr k Hbk) as (r' & Hrun & Hrel).
  rewrite Ho in Hrun, Hrel. rewrite Hrun, bind_Ok.
  pose proof (bk_grow t _ Hbk) as Hbkg.
  apply StronglySorted_cons in HS as [Hk HS]. rewrite Forall_forall in Hk.
  apply IH; simpl; [done|by eapply bk_ins_rel| |done|].
  - eapply lean_ins_rel; [done|done| |by apply lean_grow].
    intros x Hx. rewrite inorder_z_grow in Hx by done. apply Hlt; [done|by left].
  - destruct (ins_rel_inorder _ _ _ _ Hrel Hbkg) as (X & Y & HX & HX' & _).
    rewrite inorder_z_grow in HX by done. rewrite HX'.
    intros x y Hx Hy.
    apply elem_of_app in Hx as [Hx|[->|Hx]%elem_of_cons].
    + apply Hlt; [|by right]. rewrite HX. apply elem_of_app. by left.
    + by apply Hk.
    + apply Hlt; [|by right]. rewrite HX. apply elem_of_app. by right.
Qed.

(** X11.  When the keys are inserted in strictly increasing order, as
    the demonstration does, every node that is not on the rightmost
    path of the resulting tree holds exactly [t - 1] keys: all the room
    left by the splits stays unused. *)
Theorem increasing_inserts_leave_nodes_lean (t : Z) (l : list Z) :
  StronglySorted Z.lt l →
  ∃ tr, insert_all (BTree_init t) l = Ok tr ∧
        ∀ x, x ∈ off_spine (root tr) →
          n_keys x = t - 1 ∧ Z.of_nat (length (keys x)) = t - 1.
Proof.
  intros HS.
  destruct (lean_insert_all t l (BTree_init t)) as (tr & Hrun & Hlean);
    [done|apply bk_init| |done| |by exists tr].
  - intros x. by intros ?%elem_of_nil.
  - intros x y. by intros ?%elem_of_nil.
Qed.

Lemma increasing_inserts_leave_nodes_lean_witness :
  ∃ tr, insert_all (BTree_init 3) demo_keys = Ok tr ∧
        ∀ x, x ∈ off_spine (root tr) →
          n_keys x = 3 - 1 ∧ Z.of_nat (length (keys x)) = 3 - 1.
Proof.
  apply (increasing_inserts_leave_nodes_lean 3 demo_keys).
  unfold demo_keys. repeat (constructor; [|repeat (constructor; [lia|])]);
    constructor.
Defined.
